(** * landshark.image: pixel edges, pixel -> world and world -> pixel lookups

    A shallow embedding of [landshark/image.py] and the properties of its
    three functions [pixel_coordinates], [image_to_world] and
    [world_to_image].

    - [np.float64] values are IEEE 754 binary64 numbers, taken from the
      Standard Library's [SpecFloat] (precision 53, [emax] 1024), with its
      rounding to nearest even;
    - Python [int]s and [np.int64] indices are [Z]; every index this module
      computes lies between [-1] and the length of an array, so no 64-bit
      wrap-around can occur;
    - one-dimensional arrays are lists, NumPy arrays whose [ndim] and
      [dtype] the code inspects are records that carry both;
    - a raised Python exception is the [Raise] case of [result]. *)

From Stdlib Require Import String.
From Stdlib Require Import ZArith List Bool Lia PeanoNat.
From Stdlib Require Import Floats.SpecFloat.
Import ListNotations.

Local Open Scope Z_scope.

(** ** binary64 *)

(** A binary64 value. *)
Abbreviation float := spec_float.

Module F64.

Definition prec : Z := 53.
Definition emax : Z := 1024.

Definition nan : float := S754_nan.
Definition zero : float := S754_zero false.

Definition mul : float -> float -> float := SFmul prec emax.
Definition add : float -> float -> float := SFadd prec emax.
Definition opp : float -> float := SFopp.

(** Conversion of an integer, rounding to nearest even (exact up to
    [2^53]). *)
Definition of_int (n : Z) : float := binary_normalize prec emax n 0 false.

(** [m * 2^e], rounded: the way to write a literal such as [2.5]. *)
Definition of_dyadic (m e : Z) : float := binary_normalize prec emax m e false.

Definition ltb : float -> float -> bool := SFltb.
Definition leb : float -> float -> bool := SFleb.
Definition eqb : float -> float -> bool := SFeqb.

Definition is_nan (x : float) : bool :=
  match x with S754_nan => true | _ => false end.

Definition is_finite (x : float) : bool :=
  match x with S754_zero _ | S754_finite _ _ _ => true | _ => false end.

(** The values that are binary64 numbers: canonical mantissa and exponent
    in range. *)
Definition valid : float -> bool := valid_binary prec emax.

Definition one : float := of_int 1.
Definition minus_one : float := of_int (-1).

(** The finite binary64 numbers. *)
Definition is_number (x : float) : bool := is_finite x && valid x.

(** The exponent of the smallest positive number, [2^-1074]. *)
Definition emin : Z := 3 - emax - prec.

(** The value of a number, counted in units of [2^emin]: an integer, since
    no binary64 number has a smaller exponent. The real value of [x] is
    [units x * 2^emin]. *)
Definition units (x : float) : Z :=
  match x with
  | S754_finite s m e => cond_Zopp s (Zpos m) * 2 ^ (e - emin)
  | _ => 0
  end.

End F64.

(** ** Python exceptions and results *)

Inductive exception : Type :=
| AssertionError
| IndexError
| ValueError (msg : string).

Inductive result (A : Type) : Type :=
| Ok (a : A)
| Raise (e : exception).

Arguments Ok {A} a.
Arguments Raise {A} e.

Definition bind {A B : Type} (m : result A) (k : A -> result B) : result B :=
  match m with
  | Ok a => k a
  | Raise e => Raise e
  end.

Notation "x <- m ;; k" := (bind m (fun x => k))
  (at level 61, m at next level, right associativity).
Notation "m ;;; k" := (bind m (fun _ => k))
  (at level 61, right associativity).

(** [assert b] *)
Definition assert (b : bool) : result unit :=
  if b then Ok tt else Raise AssertionError.

Fixpoint mapM {A B : Type} (f : A -> result B) (l : list A) : result (list B) :=
  match l with
  | [] => Ok []
  | x :: l' => y <- f x ;; ys <- mapM f l' ;; Ok (y :: ys)
  end.

(** ** NumPy arrays *)

Inductive Dtype : Type := int32 | int64 | float32 | float64.

Definition Dtype_eqb (s u : Dtype) : bool :=
  match s, u with
  | int32, int32 | int64, int64 | float32, float32 | float64, float64 => true
  | _, _ => false
  end.

(** An array as far as [image_to_world] looks at it: its number of
    dimensions, its dtype and its elements. The first extent [shape[0]] is
    read only once [ndim == 1] has been asserted, where it is the number of
    elements. *)
Record ndarray (A : Type) : Type := mk_ndarray {
  ndim : nat;
  dtype : Dtype;
  items : list A
}.

Arguments mk_ndarray {A} ndim dtype items.
Arguments ndim {A} n.
Arguments dtype {A} n.
Arguments items {A} n.

Definition shape0 {A : Type} (arr : ndarray A) : Z := Z.of_nat (length (items arr)).

(** A one-dimensional array of the given dtype. *)
Definition array1 {A : Type} (ty : Dtype) (l : list A) : ndarray A :=
  mk_ndarray 1 ty l.

(** [arr[i]] on a one-dimensional array: negative indices count from the
    end, anything else out of range raises [IndexError]. *)
Definition getitem (arr : list float) (i : Z) : result float :=
  let n := Z.of_nat (length arr) in
  if (0 <=? i) && (i <? n) then Ok (nth (Z.to_nat i) arr F64.nan)
  else if (- n <=? i) && (i <? 0) then Ok (nth (Z.to_nat (n + i)) arr F64.nan)
  else Raise IndexError.

(** [np.arange(n, dtype=np.float64)]: [0.0, 1.0, ..., n - 1], empty for
    [n <= 0]. *)
Definition arange (n : Z) : list float :=
  map (fun k => F64.of_int (Z.of_nat k)) (seq 0 (Z.to_nat n)).

(** *** [np.searchsorted]

    NumPy orders floats with NaN last and searches by bisection: side
    ["left"] compares with [<] and finds the first position whose element
    is not less than the key, side ["right"] compares with [<=] and finds
    the first position whose element is greater. The keys are searched one
    after another (NumPy's [binsearch]), and the search of a key does not
    start from the whole array: the key before it and the interval its
    search ended on narrow the interval the search starts from. *)

Definition np_lt (x y : float) : bool :=
  F64.ltb x y || (F64.is_nan y && negb (F64.is_nan x)).

Definition np_le (x y : float) : bool := negb (np_lt y x).

Inductive Side : Type := Left | Right.

Definition side_cmp (s : Side) : float -> float -> bool :=
  match s with Left => np_lt | Right => np_le end.

(** The loop [while (min_idx < max_idx)] of the bisection, from the
    interval it is given to the interval it ends on; [fuel] bounds the
    number of iterations and [max_idx - min_idx] of them are enough (lemma
    [binsearch_loop_fuel]). *)
Fixpoint binsearch_loop (cmp : float -> float -> bool) (arr : list float)
    (key : float) (fuel min_idx max_idx : nat) : nat * nat :=
  match fuel with
  | O => (min_idx, max_idx)
  | S fuel' =>
      if (min_idx <? max_idx)%nat then
        let mid_idx := (min_idx + (max_idx - min_idx) / 2)%nat in
        let mid_val := nth mid_idx arr F64.nan in
        if cmp mid_val key
        then binsearch_loop cmp arr key fuel' (mid_idx + 1)%nat max_idx
        else binsearch_loop cmp arr key fuel' min_idx mid_idx
      else (min_idx, max_idx)
  end.

(** The loop over the keys: [last_key_val] is the key before, [min_idx]
    and [max_idx] are what its search left. A key that compares above the
    key before it keeps [min_idx] and is searched up to the end of the
    array; any other key is searched from the start up to one past
    [max_idx]. *)
Fixpoint binsearch_keys (cmp : float -> float -> bool) (arr : list float)
    (keys : list float) (last_key_val : float) (min_idx max_idx : nat) : list Z :=
  match keys with
  | [] => []
  | key_val :: keys' =>
      let arr_len := length arr in
      let '(min_idx, max_idx) :=
        if cmp last_key_val key_val then (min_idx, arr_len)
        else (0%nat, if (max_idx <? arr_len)%nat then (max_idx + 1)%nat else arr_len) in
      let '(min_idx, max_idx) :=
        binsearch_loop cmp arr key_val arr_len min_idx max_idx in
      Z.of_nat min_idx :: binsearch_keys cmp arr keys' key_val min_idx max_idx
  end.

Definition searchsorted (arr v : list float) (s : Side) : list Z :=
  match v with
  | [] => []
  | key :: _ => binsearch_keys (side_cmp s) arr v key 0 (length arr)
  end.

(** The search of one key on its own: the bisection over the whole array. *)
Definition binsearch (s : Side) (arr : list float) (key : float) : nat :=
  fst (binsearch_loop (side_cmp s) arr key (length arr) 0 (length arr)).

(** ** The affine transform *)

(** The six coefficients of [affine.Affine]: [affine[0] = a] (x scale),
    [b] (x shear), [c] (x origin), [d] (y shear), [e] (y scale),
    [f] (y origin). *)
Record Affine : Type := mk_Affine {
  a : float; b : float; c : float;
  d : float; e : float; f : float
}.

(** [affine[k]]: the transform is the tuple [(a, b, c, d, e, f, 0, 0, 1)]. *)
Definition Affine_item (t : Affine) (k : nat) : float :=
  nth k [a t; b t; c t; d t; e t; f t; F64.zero; F64.zero; F64.one] F64.nan.

(** Modelled from the spec: [Affine.is_rectilinear] belongs to the [affine]
    package, which is not among the sources; the specification's data
    model says what it means: both shear terms are zero. *)
Definition is_rectilinear (t : Affine) : bool :=
  F64.eqb (b t) F64.zero && F64.eqb (d t) F64.zero.

(** ** [pixel_coordinates] *)

Definition pixel_coordinates (width height : Z) (affine : Affine)
  : result (list float * list float) :=
  assert (is_rectilinear affine) ;;;
  let pixel_width := Affine_item affine 0 in
  let pixel_height := F64.mul F64.minus_one (Affine_item affine 4) in
  let origin_x := Affine_item affine 2 in
  let origin_y := Affine_item affine 5 in
  let pix_x := arange (width + 1) in
  let pix_y := arange (height + 1) in
  let coords_x := map (fun p => F64.add (F64.mul p pixel_width) origin_x) pix_x in
  let coords_y := map (fun p => F64.add (F64.mul p pixel_height) origin_y) pix_y in
  Ok (coords_x, coords_y).

(** ** [image_to_world] *)

Definition image_to_world (indices : ndarray Z) (pixel_coordinate_array : ndarray float)
  : result (ndarray float) :=
  assert (ndim indices =? 1)%nat ;;;
  assert (Dtype_eqb (dtype indices) int64) ;;;
  assert (ndim pixel_coordinate_array =? 1)%nat ;;;
  assert (Dtype_eqb (dtype pixel_coordinate_array) float64) ;;;
  assert (forallb (fun i => 0 <=? i) (items indices)) ;;;
  assert (forallb (fun i => i <? shape0 pixel_coordinate_array - 1) (items indices)) ;;;
  result <- mapM (getitem (items pixel_coordinate_array)) (items indices) ;;
  Ok (array1 float64 result).

(** ** [world_to_image]

    [points] and [pixel_coordinate_array] are one-dimensional [float64]
    arrays, the result a one-dimensional [int64] array; [res] is
    [pixel_coordinate_array.shape[0] - 1]. *)

Definition value_error : exception :=
  ValueError "Queried location is not in the image".

Definition world_to_image (points pixel_coordinate_array : list float)
  : result (list Z) :=
  pca1 <- getitem pixel_coordinate_array 1 ;;
  pca0 <- getitem pixel_coordinate_array 0 ;;
  let reverse := F64.ltb pca1 pca0 in
  let idx :=
    if reverse then
      let rev_idx :=
        map (fun k => k + 1) (searchsorted (rev pixel_coordinate_array) points Left) in
      map (fun k => Z.of_nat (length pixel_coordinate_array) - k) rev_idx
    else
      map (fun k => k - 1) (searchsorted pixel_coordinate_array points Right) in
  last_edge <- getitem pixel_coordinate_array (-1) ;;
  let on_end := map (fun p => F64.eqb p last_edge) points in
  let idx := map (fun '(k, b) => if b : bool then k - 1 else k) (combine idx on_end) in
  let res := Z.of_nat (length pixel_coordinate_array) - 1 in
  if negb (forallb (fun k => (0 <=? k) && (k <? res)) idx)
  then Raise value_error
  else Ok idx.

(** ** Edge grids *)

(** Strictly increasing, strictly decreasing: every edge compares below
    (above) the next one. A grid that holds a NaN is neither. *)
Fixpoint ascending (g : list float) : bool :=
  match g with
  | x :: (y :: _) as g' => F64.ltb x y && ascending g'
  | _ => true
  end.

Fixpoint descending (g : list float) : bool :=
  match g with
  | x :: (y :: _) as g' => F64.ltb y x && descending g'
  | _ => true
  end.

Definition strictly_monotonic (g : list float) : bool :=
  ascending g || descending g.

(** The edge [g[i]]. *)
Definition edge (g : list float) (i : nat) : float := nth i g F64.nan.

(** The index [world_to_image] computes for a point that is searched on
    its own, before the range check. *)
Definition locate (g : list float) (q : float) : Z :=
  let k :=
    if F64.ltb (edge g 1) (edge g 0)
    then Z.of_nat (length g) - (Z.of_nat (binsearch Left (rev g) q) + 1)
    else Z.of_nat (binsearch Right g q) - 1 in
  if F64.eqb q (edge g (length g - 1)) then k - 1 else k.

(** The indices [world_to_image] computes for a batch of points, before
    the range check. *)
Definition pixel_indices (g points : list float) : list Z :=
  let idx :=
    if F64.ltb (edge g 1) (edge g 0) then
      map (fun k => Z.of_nat (length g) - k)
          (map (fun k => k + 1) (searchsorted (rev g) points Left))
    else map (fun k => k - 1) (searchsorted g points Right) in
  let on_end := map (fun p => F64.eqb p (edge g (length g - 1))) points in
  map (fun '(k, b) => if b : bool then k - 1 else k) (combine idx on_end).

(** An array in NumPy's order: no element compares below an earlier one. *)
Definition np_sorted (arr : list float) : Prop :=
  forall j k : nat, (j <= k)%nat -> (k < length arr)%nat ->
    np_lt (nth k arr F64.nan) (nth j arr F64.nan) = false.

Definition in_image (g : list float) (k : Z) : bool :=
  (0 <=? k) && (k <? Z.of_nat (length g) - 1).

(** Pixel -> world -> pixel on one axis: [world_to_image] applied to what
    [image_to_world] returns for [indices]. *)
Definition round_trip (indices : list Z) (g : list float) : result (list Z) :=
  world <- image_to_world (array1 int64 indices) (array1 float64 g) ;;
  world_to_image (items world) g.

(** Pixel [i] owns the point [q]: [q] lies in the half-open interval from
    edge [i] to edge [i + 1], taken in the grid's direction. *)
Definition owns (g : list float) (i : nat) (q : float) : bool :=
  (ascending g && F64.leb (edge g i) q && F64.ltb q (edge g (i + 1))) ||
  (descending g && F64.leb q (edge g i) && F64.ltb (edge g (i + 1)) q).

(** The point [q] lies outside the closed interval the grid spans: below
    every edge, or above every edge. *)
Definition outside (g : list float) (q : float) : bool :=
  forallb (fun x => F64.ltb q x) g || forallb (fun x => F64.ltb x q) g.

(** The binary64 evaluation of [i * scale + origin], as [pixel_coordinates]
    performs it, is exact: the result is a finite number whose value is
    [i * scale + origin], not a rounding of it. *)
Definition exact_edge (scale origin : float) (i : Z) : bool :=
  let x := F64.add (F64.mul (F64.of_int i) scale) origin in
  F64.is_number x && (F64.units x =? i * F64.units scale + F64.units origin).

(** Every edge of an axis of [count] pixels is exact. *)
Definition exact_edges (scale origin : float) (count : Z) : bool :=
  forallb (fun k => exact_edge scale origin (Z.of_nat k))
          (seq 0 (Z.to_nat (count + 1))).

(** The point [q] lies in the closed interval between the first and the
    last edge, whichever of the two is the smaller. *)
Definition inside (g : list float) (q : float) : bool :=
  let first := edge g 0 in
  let last := edge g (length g - 1) in
  (F64.leb first q && F64.leb q last) || (F64.leb last q && F64.leb q first).

(** ** Rounding to nearest

    What the properties of [F64.mul] and [F64.add] are stated with. *)

(** [m / 2^n], rounded to the nearest integer, to the even one when two are
    as near. *)
Definition nearest_even (m n : Z) : Z :=
  let q := m / 2 ^ n in
  let rem := m mod 2 ^ n in
  if 2 * rem <? 2 ^ n then q
  else if 2 ^ n <? 2 * rem then q + 1
  else if Z.even q then q else q + 1.

(** The value of infinity, in units of [2^emin]: the first power of two
    that is not a binary64 number. *)
Definition overflow : Z := 2 ^ (F64.emax - F64.emin).

(** The binary64 rounding of [v * 2^u] for [0 <= v] and [u <= emin], in
    units of [2^emin]: [v] keeps its 53 leading digits, or those above
    [2^emin]; what reaches [overflow] is infinity. *)
Definition round_units (u v : Z) : Z :=
  let E := Z.max (Z.log2 v + 1 + u - F64.prec) F64.emin in
  Z.min (nearest_even v (E - u) * 2 ^ (E - F64.emin)) overflow.

Definition round_signed (u v : Z) : Z :=
  match v with
  | 0 => 0
  | Zpos _ => round_units u v
  | Zneg _ => - round_units u (- v)
  end.

(** The place of a binary64 value in the order: its value in units of
    [2^emin], infinity counting as [overflow]. *)
Definition rank (x : float) : Z :=
  match x with
  | S754_infinity s => cond_Zopp s overflow
  | _ => F64.units x
  end.

(** A binary64 value other than NaN. *)
Definition is_value (x : float) : bool := F64.valid x && negb (F64.is_nan x).

(** Never decreasing, never increasing, and with no edge equal to the edge
    before it. *)
Fixpoint nondecreasing (g : list float) : bool :=
  match g with
  | x :: (y :: _) as g' => F64.leb x y && nondecreasing g'
  | _ => true
  end.

Fixpoint nonincreasing (g : list float) : bool :=
  match g with
  | x :: (y :: _) as g' => F64.leb y x && nonincreasing g'
  | _ => true
  end.

Fixpoint no_repeat (g : list float) : bool :=
  match g with
  | x :: (y :: _) as g' => negb (F64.eqb x y) && no_repeat g'
  | _ => true
  end.

(** * Properties *)

(** ** The order of binary64 *)

Module F64Order.

Lemma compare_antisym (x y : float) :
  SFcompare y x = option_map CompOpp (SFcompare x y).
Proof.
  destruct x as [[]|[]| |[] m1 e1], y as [[]|[]| |[] m2 e2]; simpl; try reflexivity;
    change (Pos.compare_cont Eq m2 m1) with (Pos.compare m2 m1);
    change (Pos.compare_cont Eq m1 m2) with (Pos.compare m1 m2);
    rewrite (Z.compare_antisym e1 e2), (Pos.compare_antisym m1 m2);
    destruct (e1 ?= e2); simpl; try reflexivity;
    destruct (m1 ?= m2)%positive; reflexivity.
Qed.

Ltac by_cases x y z :=
  destruct x as [[]|[]| |[] ?m1 ?e1], y as [[]|[]| |[] ?m2 ?e2], z as [[]|[]| |[] ?m3 ?e3];
  simpl; try congruence;
  change (Pos.compare_cont Eq) with Pos.compare;
  match goal with
  | |- context [ (?e1 ?= ?e2) ] =>
      match goal with
      | |- context [ (e2 ?= ?e3) ] =>
          destruct (Z.compare_spec e1 e2), (Z.compare_spec e2 e3), (Z.compare_spec e1 e3)
      end
  end;
  try lia; try congruence;
  match goal with
  | |- context [ (?m1 ?= ?m2)%positive ] =>
      match goal with
      | |- context [ (m2 ?= ?m3)%positive ] =>
          destruct (Pos.compare_spec m1 m2), (Pos.compare_spec m2 m3),
            (Pos.compare_spec m1 m3)
      end
  end;
  simpl; try lia; congruence.

Lemma compare_trans (x y z : float) (c : comparison) :
  SFcompare x y = Some c -> SFcompare y z = Some c -> SFcompare x z = Some c.
Proof. by_cases x y z. Qed.

Lemma compare_eq_l (x y z : float) (c : comparison) :
  SFcompare x y = Some Eq -> SFcompare y z = Some c -> SFcompare x z = Some c.
Proof. by_cases x y z. Qed.

Lemma compare_eq_r (x y z : float) (c : comparison) :
  SFcompare x y = Some c -> SFcompare y z = Some Eq -> SFcompare x z = Some c.
Proof. by_cases x y z. Qed.

Lemma compare_total (x y : float) :
  F64.is_nan x = false -> F64.is_nan y = false -> exists c, SFcompare x y = Some c.
Proof.
  destruct x as [[]|[]| |[] m1 e1], y as [[]|[]| |[] m2 e2];
    simpl; try discriminate; eauto.
Qed.

Lemma compare_not_nan (x y : float) (c : comparison) :
  SFcompare x y = Some c -> F64.is_nan x = false /\ F64.is_nan y = false.
Proof.
  destruct x as [[]|[]| |[] m1 e1], y as [[]|[]| |[] m2 e2];
    simpl; try discriminate; auto.
Qed.

Lemma ltb_compare (x y : float) : F64.ltb x y = true <-> SFcompare x y = Some Lt.
Proof.
  unfold F64.ltb, SFltb. destruct (SFcompare x y) as [[]|]; split; congruence.
Qed.

Lemma eqb_compare (x y : float) : F64.eqb x y = true <-> SFcompare x y = Some Eq.
Proof.
  unfold F64.eqb, SFeqb. destruct (SFcompare x y) as [[]|]; split; congruence.
Qed.

Lemma gtb_compare (x y : float) : F64.ltb y x = true <-> SFcompare x y = Some Gt.
Proof.
  rewrite ltb_compare, compare_antisym.
  destruct (SFcompare x y) as [[]|]; simpl; split; congruence.
Qed.

Lemma leb_spec (x y : float) : F64.leb x y = F64.ltb x y || F64.eqb x y.
Proof.
  unfold F64.leb, F64.ltb, F64.eqb, SFleb, SFltb, SFeqb.
  destruct (SFcompare x y) as [[]|]; reflexivity.
Qed.

Lemma ltb_irrefl (x : float) : F64.ltb x x = false.
Proof.
  destruct (F64.ltb x x) eqn:H; [|reflexivity].
  assert (G := H). apply ltb_compare in H. apply gtb_compare in G. congruence.
Qed.

Lemma ltb_trans (x y z : float) :
  F64.ltb x y = true -> F64.ltb y z = true -> F64.ltb x z = true.
Proof. rewrite !ltb_compare. apply compare_trans. Qed.

Lemma ltb_asym (x y : float) : F64.ltb x y = true -> F64.ltb y x = false.
Proof.
  intros H. destruct (F64.ltb y x) eqn:G; [|reflexivity].
  rewrite <- (ltb_irrefl x). symmetry. eapply ltb_trans; eassumption.
Qed.

Lemma eqb_sym (x y : float) : F64.eqb x y = F64.eqb y x.
Proof.
  unfold F64.eqb, SFeqb. rewrite (compare_antisym y x).
  destruct (SFcompare y x) as [[]|]; reflexivity.
Qed.

Lemma eqb_ltb_trans (x y z : float) :
  F64.eqb x y = true -> F64.ltb y z = true -> F64.ltb x z = true.
Proof. rewrite eqb_compare, !ltb_compare. apply compare_eq_l. Qed.

Lemma ltb_eqb_trans (x y z : float) :
  F64.ltb x y = true -> F64.eqb y z = true -> F64.ltb x z = true.
Proof. rewrite eqb_compare, !ltb_compare. apply compare_eq_r. Qed.

Lemma ltb_not_eqb (x y : float) : F64.ltb x y = true -> F64.eqb x y = false.
Proof.
  rewrite ltb_compare. unfold F64.eqb, SFeqb. intros ->. reflexivity.
Qed.

Lemma gtb_not_eqb (x y : float) : F64.ltb y x = true -> F64.eqb x y = false.
Proof. intros H. rewrite eqb_sym. now apply ltb_not_eqb. Qed.

Lemma ltb_not_nan (x y : float) :
  F64.ltb x y = true -> F64.is_nan x = false /\ F64.is_nan y = false.
Proof. rewrite ltb_compare. apply compare_not_nan. Qed.

Lemma eqb_not_nan (x y : float) :
  F64.eqb x y = true -> F64.is_nan x = false /\ F64.is_nan y = false.
Proof. rewrite eqb_compare. apply compare_not_nan. Qed.

(** Two numbers are ordered one way or the other, or equal. *)
Lemma trichotomy (x y : float) :
  F64.is_nan x = false -> F64.is_nan y = false ->
  F64.ltb x y = true \/ F64.eqb x y = true \/ F64.ltb y x = true.
Proof.
  intros Hx Hy. destruct (compare_total x y Hx Hy) as [[] H].
  - right; left. now apply eqb_compare.
  - left. now apply ltb_compare.
  - right; right. now apply gtb_compare.
Qed.

(** Among numbers, [x <= y] is the negation of [y < x]. *)
Lemma leb_not_gtb (x y : float) :
  F64.is_nan x = false -> F64.is_nan y = false ->
  F64.leb x y = negb (F64.ltb y x).
Proof.
  intros Hx Hy. unfold F64.leb, F64.ltb, SFleb, SFltb.
  rewrite (compare_antisym x y).
  destruct (compare_total x y Hx Hy) as [[] ->]; reflexivity.
Qed.

End F64Order.

(** ** Bisection *)

Lemma binsearch_loop_step cmp arr key fuel lo hi :
  binsearch_loop cmp arr key (S fuel) lo hi =
  if (lo <? hi)%nat then
    if cmp (nth (lo + (hi - lo) / 2)%nat arr F64.nan) key
    then binsearch_loop cmp arr key fuel (lo + (hi - lo) / 2 + 1)%nat hi
    else binsearch_loop cmp arr key fuel lo (lo + (hi - lo) / 2)%nat
  else (lo, hi).
Proof. reflexivity. Qed.

(** The loop ends within [max_idx - min_idx] iterations: any larger bound
    gives the same result. *)
Lemma binsearch_loop_fuel cmp arr key (fuel fuel' lo hi : nat) :
  (hi - lo <= fuel)%nat -> (hi - lo <= fuel')%nat ->
  binsearch_loop cmp arr key fuel lo hi = binsearch_loop cmp arr key fuel' lo hi.
Proof.
  revert fuel' lo hi. induction fuel as [|fuel IH]; intros [|fuel'] lo hi H H'.
  - reflexivity.
  - rewrite binsearch_loop_step. simpl.
    destruct (Nat.ltb_spec lo hi); [lia|reflexivity].
  - rewrite binsearch_loop_step. simpl.
    destruct (Nat.ltb_spec lo hi); [lia|reflexivity].
  - rewrite !binsearch_loop_step.
    destruct (Nat.ltb_spec lo hi) as [Hlt|]; [|reflexivity].
    assert (((hi - lo) / 2 < hi - lo)%nat) by (apply Nat.div_lt; lia).
    destruct (cmp _ key); apply IH; lia.
Qed.

(** The loop ends on an empty interval, inside the one it started from. *)
Lemma binsearch_loop_exit cmp arr key (fuel lo hi : nat) :
  (lo <= hi)%nat -> (hi - lo <= fuel)%nat ->
  snd (binsearch_loop cmp arr key fuel lo hi) =
    fst (binsearch_loop cmp arr key fuel lo hi) /\
  (lo <= fst (binsearch_loop cmp arr key fuel lo hi))%nat /\
  (fst (binsearch_loop cmp arr key fuel lo hi) <= hi)%nat.
Proof.
  revert lo hi. induction fuel as [|fuel IH]; intros lo hi Hle Hfuel.
  - assert (lo = hi) by lia. subst. simpl. auto.
  - rewrite binsearch_loop_step.
    destruct (Nat.ltb_spec lo hi) as [Hlt|Hge].
    + assert (((hi - lo) / 2 < hi - lo)%nat) by (apply Nat.div_lt; lia).
      destruct (cmp _ key).
      * destruct (IH (lo + (hi - lo) / 2 + 1)%nat hi) as (E & H1 & H2); lia.
      * destruct (IH lo (lo + (hi - lo) / 2)%nat) as (E & H1 & H2); lia.
    + assert (lo = hi) by lia. subst. simpl. auto.
Qed.

(** Where every element of the interval compares below the key the loop
    ends at its upper end, where none does at its lower end. *)
Lemma binsearch_loop_all_true cmp arr key (fuel lo hi : nat) :
  (lo <= hi)%nat -> (hi - lo <= fuel)%nat ->
  (forall k, (lo <= k)%nat -> (k < hi)%nat -> cmp (nth k arr F64.nan) key = true) ->
  fst (binsearch_loop cmp arr key fuel lo hi) = hi.
Proof.
  revert lo hi. induction fuel as [|fuel IH]; intros lo hi Hle Hfuel H.
  - simpl. lia.
  - rewrite binsearch_loop_step.
    destruct (Nat.ltb_spec lo hi) as [Hlt|Hge]; [|simpl; lia].
    assert (((hi - lo) / 2 < hi - lo)%nat) by (apply Nat.div_lt; lia).
    rewrite H by lia. apply IH; try lia. intros k H1 H2. apply H; lia.
Qed.

Lemma binsearch_loop_all_false cmp arr key (fuel lo hi : nat) :
  (lo <= hi)%nat -> (hi - lo <= fuel)%nat ->
  (forall k, (lo <= k)%nat -> (k < hi)%nat -> cmp (nth k arr F64.nan) key = false) ->
  fst (binsearch_loop cmp arr key fuel lo hi) = lo.
Proof.
  revert lo hi. induction fuel as [|fuel IH]; intros lo hi Hle Hfuel H.
  - reflexivity.
  - rewrite binsearch_loop_step.
    destruct (Nat.ltb_spec lo hi) as [Hlt|Hge]; [|reflexivity].
    assert (((hi - lo) / 2 < hi - lo)%nat) by (apply Nat.div_lt; lia).
    rewrite H by lia. apply IH; try lia. intros k H1 H2. apply H; lia.
Qed.

Section Bisection.

Variable cmp : float -> float -> bool.
Variable arr : list float.
Variable key : float.

Let p (k : nat) : bool := cmp (nth k arr F64.nan) key.

(** The array is ordered for the key: the elements that compare below the
    key come first. *)
Hypothesis p_downward : forall j k : nat,
  (j <= k)%nat -> (k < length arr)%nat -> p k = true -> p j = true.

Lemma binsearch_loop_spec (fuel lo hi : nat) :
  (lo <= hi)%nat -> (hi <= length arr)%nat -> (hi - lo <= fuel)%nat ->
  (forall k, (k < lo)%nat -> p k = true) ->
  (forall k, (hi <= k)%nat -> (k < length arr)%nat -> p k = false) ->
  let r := fst (binsearch_loop cmp arr key fuel lo hi) in
  (r <= length arr)%nat /\
  (forall k, (k < r)%nat -> p k = true) /\
  (forall k, (r <= k)%nat -> (k < length arr)%nat -> p k = false).
Proof.
  revert lo hi. induction fuel as [|fuel IH]; intros lo hi Hle Hhi Hfuel Hlo Hup.
  - assert (lo = hi) by lia. subst. simpl. repeat split; auto.
  - cbv zeta. rewrite binsearch_loop_step.
    destruct (Nat.ltb_spec lo hi) as [Hlt|Hge].
    + assert (Hhalf : ((hi - lo) / 2 < hi - lo)%nat)
        by (apply Nat.div_lt; lia).
      set (mid := (lo + (hi - lo) / 2)%nat) in *.
      fold (p mid). destruct (p mid) eqn:Hmid.
      * apply IH; try lia; auto.
        intros k Hk. apply (p_downward k mid); try lia. assumption.
      * apply IH; try lia; auto.
        intros k Hk Hn. destruct (p k) eqn:Hpk; [|reflexivity].
        rewrite (p_downward mid k) in Hmid; try lia; auto.
    + assert (lo = hi) by lia. subst. repeat split; auto.
Qed.

(** The whole search returns the insertion point: the number of elements
    that compare below the key. *)
Lemma bisect_spec :
  let r := fst (binsearch_loop cmp arr key (length arr) 0 (length arr)) in
  (r <= length arr)%nat /\
  (forall k, (k < r)%nat -> p k = true) /\
  (forall k, (r <= k)%nat -> (k < length arr)%nat -> p k = false).
Proof.
  apply binsearch_loop_spec; lia.
Qed.

(** There is one insertion point only. *)
Lemma insertion_point_unique (r r' : nat) :
  (r <= length arr)%nat -> (r' <= length arr)%nat ->
  (forall k, (k < r)%nat -> p k = true) ->
  (forall k, (r <= k)%nat -> (k < length arr)%nat -> p k = false) ->
  (forall k, (k < r')%nat -> p k = true) ->
  (forall k, (r' <= k)%nat -> (k < length arr)%nat -> p k = false) ->
  r = r'.
Proof.
  intros Hr Hr' H1 H2 H1' H2'.
  destruct (Nat.lt_trichotomy r r') as [Hlt|[Heq|Hgt]]; [exfalso|assumption|exfalso].
  - specialize (H1' r Hlt). rewrite H2 in H1' by lia. discriminate.
  - specialize (H1 r' Hgt). rewrite H2' in H1 by lia. discriminate.
Qed.

End Bisection.

(** ** NumPy's order *)

Lemma np_lt_trans (x y z : float) :
  np_lt x y = true -> np_lt y z = true -> np_lt x z = true.
Proof.
  unfold np_lt. intros Hxy Hyz.
  destruct (F64.is_nan y) eqn:Ny.
  - destruct (F64.ltb y z) eqn:L.
    + apply F64Order.ltb_not_nan in L. destruct L; congruence.
    + simpl in Hyz. now rewrite andb_false_r in Hyz.
  - simpl in Hxy. rewrite orb_false_r in Hxy.
    destruct (F64Order.ltb_not_nan _ _ Hxy) as [Nx _]. rewrite Nx.
    destruct (F64.is_nan z); [apply orb_true_r|].
    simpl in Hyz. rewrite orb_false_r in Hyz.
    now rewrite (F64Order.ltb_trans _ _ _ Hxy Hyz).
Qed.

(** What is below [z] is below [y], unless [y] is below [z]. *)
Lemma np_lt_weak (x y z : float) :
  np_lt x z = true -> np_lt x y = true \/ np_lt y z = true.
Proof.
  unfold np_lt. intros Hxz.
  assert (Nx : F64.is_nan x = false).
  { apply orb_true_iff in Hxz as [H|H].
    - now apply F64Order.ltb_not_nan in H.
    - apply andb_true_iff in H as [_ H]. now apply negb_true_iff in H. }
  rewrite Nx in *. simpl in *.
  destruct (F64.is_nan y) eqn:Ny; [left; apply orb_true_r|].
  destruct (F64.is_nan z) eqn:Nz; [right; apply orb_true_r|].
  simpl. rewrite !orb_false_r in *.
  destruct (F64Order.trichotomy x y Nx Ny) as [H|[H|H]].
  - now left.
  - right. apply (F64Order.eqb_ltb_trans y x z); [|assumption].
    now rewrite F64Order.eqb_sym.
  - right. exact (F64Order.ltb_trans _ _ _ H Hxz).
Qed.

Lemma side_cmp_trans (s : Side) (x y z : float) :
  side_cmp s x y = true -> side_cmp s y z = true -> side_cmp s x z = true.
Proof.
  destruct s; simpl; [apply np_lt_trans|].
  unfold np_le. rewrite !negb_true_iff. intros Hxy Hyz.
  destruct (np_lt z x) eqn:H; [|reflexivity].
  destruct (np_lt_weak z y x H); congruence.
Qed.

Lemma side_cmp_weak (s : Side) (x y z : float) :
  side_cmp s x z = true -> side_cmp s x y = true \/ side_cmp s y z = true.
Proof.
  destruct s; simpl; [apply np_lt_weak|].
  unfold np_le. rewrite !negb_true_iff. intros Hxz.
  destruct (np_lt y x) eqn:Hyx; [|now left].
  destruct (np_lt z y) eqn:Hzy; [|now right].
  rewrite (np_lt_trans _ _ _ Hzy Hyx) in Hxz. discriminate.
Qed.

(** ** The search of a batch of keys *)

Lemma binsearch_keys_length cmp arr keys last lo hi :
  length (binsearch_keys cmp arr keys last lo hi) = length keys.
Proof.
  revert last lo hi. induction keys as [|key keys IH]; intros last lo hi; [reflexivity|].
  cbn [binsearch_keys].
  destruct (if cmp last key then _ else _) as [lo' hi'].
  destruct (binsearch_loop cmp arr key (length arr) lo' hi') as [r r'].
  cbn [length]. now rewrite IH.
Qed.

Lemma searchsorted_length (arr v : list float) (s : Side) :
  length (searchsorted arr v s) = length v.
Proof.
  destruct v as [|key v]; [reflexivity|]. apply binsearch_keys_length.
Qed.

(** A single key is searched over the whole array. *)
Lemma searchsorted_one (arr : list float) (q : float) (s : Side) :
  searchsorted arr [q] s = [Z.of_nat (binsearch s arr q)].
Proof.
  unfold searchsorted, binsearch. cbn [binsearch_keys].
  rewrite Nat.ltb_irrefl.
  assert (E : (if side_cmp s q q then (0%nat, length arr) else (0%nat, length arr)) =
              (0%nat, length arr)) by (destruct (side_cmp s q q); reflexivity).
  rewrite E.
  destruct (binsearch_loop (side_cmp s) arr q (length arr) 0 (length arr)); reflexivity.
Qed.

Section Batch.

Variable s : Side.
Variable arr : list float.

Local Abbreviation cmp := (side_cmp s).
Local Abbreviation below key :=
  (forall k, (k < length arr)%nat -> side_cmp s (nth k arr F64.nan) key = true).
Local Abbreviation above key :=
  (forall k, (k < length arr)%nat -> side_cmp s (nth k arr F64.nan) key = false).

(** One step of the loop over the keys: the interval a key is searched
    in. *)
Let start (last key : float) (lo hi : nat) : nat * nat :=
  if cmp last key then (lo, length arr)
  else (0%nat, if (hi <? length arr)%nat then (hi + 1)%nat else length arr).

Lemma binsearch_keys_cons (key : float) (keys : list float) (last : float)
    (lo hi : nat) :
  binsearch_keys cmp arr (key :: keys) last lo hi =
  Z.of_nat (fst (binsearch_loop cmp arr key (length arr)
                   (fst (start last key lo hi)) (snd (start last key lo hi))))
  :: binsearch_keys cmp arr keys key
       (fst (binsearch_loop cmp arr key (length arr)
               (fst (start last key lo hi)) (snd (start last key lo hi))))
       (snd (binsearch_loop cmp arr key (length arr)
               (fst (start last key lo hi)) (snd (start last key lo hi)))).
Proof.
  cbn [binsearch_keys]. unfold start.
  destruct (if cmp last key then _ else _) as [lo' hi']. cbn [fst snd].
  destruct (binsearch_loop cmp arr key (length arr) lo' hi'); reflexivity.
Qed.

Lemma start_bounds (last key : float) (lo hi : nat) :
  (lo <= hi)%nat -> (hi <= length arr)%nat ->
  (fst (start last key lo hi) <= snd (start last key lo hi))%nat /\
  (snd (start last key lo hi) <= length arr)%nat.
Proof.
  intros H1 H2. unfold start. destruct (cmp last key); cbn [fst snd]; [lia|].
  destruct (Nat.ltb_spec hi (length arr)); lia.
Qed.

(** A key that every element compares below is given the length of the
    array, and a key that no element compares below is given [0], whatever
    the array holds and whatever keys come before. *)
Lemma binsearch_keys_below (keys : list float) (last : float) (lo hi j : nat)
    (q : float) :
  (lo <= hi)%nat -> (hi <= length arr)%nat ->
  (below last -> hi = length arr) ->
  nth_error keys j = Some q -> below q ->
  nth_error (binsearch_keys cmp arr keys last lo hi) j = Some (Z.of_nat (length arr)).
Proof.
  revert last lo hi j. induction keys as [|key keys IH]; intros last lo hi j H1 H2 Hinv Hj Hq.
  - destruct j; discriminate.
  - rewrite binsearch_keys_cons.
    destruct (start_bounds last key lo hi H1 H2) as [B1 B2].
    destruct (binsearch_loop_exit cmp arr key (length arr) _ _ B1 ltac:(lia))
      as (E & E1 & E2).
    assert (Hkey : below key ->
              fst (binsearch_loop cmp arr key (length arr)
                     (fst (start last key lo hi)) (snd (start last key lo hi)))
              = length arr).
    { intros Hb. rewrite binsearch_loop_all_true; try lia.
      - unfold start. destruct (cmp last key) eqn:C; [reflexivity|]. cbn [snd].
        rewrite Hinv; [now rewrite Nat.ltb_irrefl|].
        intros k Hk. destruct (side_cmp_weak s _ last key (Hb k Hk)) as [H|H];
          [exact H|]. congruence.
      - intros k _ Hk. apply Hb. lia. }
    destruct j as [|j].
    + injection Hj as ->. cbn [nth_error]. now rewrite (Hkey Hq).
    + cbn [nth_error]. apply (IH key); try lia; try assumption.
      intros Hb. rewrite E. now apply Hkey.
Qed.

Lemma binsearch_keys_above (keys : list float) (last : float) (lo hi j : nat)
    (q : float) :
  (lo <= hi)%nat -> (hi <= length arr)%nat ->
  (above last -> lo = 0%nat) ->
  nth_error keys j = Some q -> above q ->
  nth_error (binsearch_keys cmp arr keys last lo hi) j = Some 0.
Proof.
  revert last lo hi j. induction keys as [|key keys IH]; intros last lo hi j H1 H2 Hinv Hj Hq.
  - destruct j; discriminate.
  - rewrite binsearch_keys_cons.
    destruct (start_bounds last key lo hi H1 H2) as [B1 B2].
    destruct (binsearch_loop_exit cmp arr key (length arr) _ _ B1 ltac:(lia))
      as (E & E1 & E2).
    assert (Hkey : above key ->
              fst (binsearch_loop cmp arr key (length arr)
                     (fst (start last key lo hi)) (snd (start last key lo hi)))
              = 0%nat).
    { intros Ha. rewrite binsearch_loop_all_false; try lia.
      - unfold start. destruct (cmp last key) eqn:C; [|reflexivity]. cbn [fst].
        apply Hinv. intros k Hk. destruct (cmp (nth k arr F64.nan) last) eqn:D;
          [|reflexivity].
        rewrite <- (Ha k Hk). symmetry. exact (side_cmp_trans s _ _ _ D C).
      - intros k _ Hk. apply Ha. lia. }
    destruct j as [|j].
    + injection Hj as ->. cbn [nth_error]. now rewrite (Hkey Hq).
    + cbn [nth_error]. apply (IH key); try lia; try assumption.
Qed.

Lemma searchsorted_below (v : list float) (j : nat) (q : float) :
  nth_error v j = Some q -> below q ->
  nth_error (searchsorted arr v s) j = Some (Z.of_nat (length arr)).
Proof.
  intros Hj Hq. destruct v as [|key v]; [destruct j; discriminate|].
  apply (binsearch_keys_below (key :: v) key 0 (length arr) j q); auto; lia.
Qed.

Lemma searchsorted_above (v : list float) (j : nat) (q : float) :
  nth_error v j = Some q -> above q ->
  nth_error (searchsorted arr v s) j = Some 0.
Proof.
  intros Hj Hq. destruct v as [|key v]; [destruct j; discriminate|].
  apply (binsearch_keys_above (key :: v) key 0 (length arr) j q); auto; lia.
Qed.

(** *** On a sorted array

    The interval a key is searched in holds its insertion point, so every
    key is given the result of its own search over the whole array. *)

Hypothesis arr_sorted : np_sorted arr.

Lemma sorted_downward (key : float) (j k : nat) :
  (j <= k)%nat -> (k < length arr)%nat ->
  cmp (nth k arr F64.nan) key = true -> cmp (nth j arr F64.nan) key = true.
Proof.
  intros Hjk Hk H. pose proof (arr_sorted j k Hjk Hk) as Hs.
  destruct s; simpl in *.
  - destruct (np_lt_weak _ (nth j arr F64.nan) _ H) as [G|G]; [congruence|exact G].
  - apply (side_cmp_trans Right _ (nth k arr F64.nan)); [|exact H].
    simpl. unfold np_le. now rewrite Hs.
Qed.

Lemma binsearch_spec (key : float) :
  (binsearch s arr key <= length arr)%nat /\
  (forall k, (k < binsearch s arr key)%nat -> cmp (nth k arr F64.nan) key = true) /\
  (forall k, (binsearch s arr key <= k)%nat -> (k < length arr)%nat ->
     cmp (nth k arr F64.nan) key = false).
Proof.
  apply (bisect_spec cmp arr key). intros j k. apply sorted_downward.
Qed.

Lemma binsearch_grows (key key' : float) :
  cmp key key' = true -> (binsearch s arr key <= binsearch s arr key')%nat.
Proof.
  intros C. destruct (binsearch_spec key) as (R & T & _).
  destruct (binsearch_spec key') as (R' & _ & F').
  destruct (Nat.le_gt_cases (binsearch s arr key) (binsearch s arr key'))
    as [|Hlt]; [assumption|exfalso].
  specialize (T _ Hlt). specialize (F' _ (Nat.le_refl _) ltac:(lia)).
  rewrite (side_cmp_trans s _ _ _ T C) in F'. discriminate.
Qed.

Lemma binsearch_shrinks (key key' : float) :
  cmp key key' = false -> (binsearch s arr key' <= binsearch s arr key)%nat.
Proof.
  intros C. destruct (binsearch_spec key) as (R & _ & F).
  destruct (binsearch_spec key') as (R' & T' & _).
  destruct (Nat.le_gt_cases (binsearch s arr key') (binsearch s arr key))
    as [|Hlt]; [assumption|exfalso].
  specialize (T' _ Hlt). specialize (F _ (Nat.le_refl _) ltac:(lia)).
  destruct (side_cmp_weak s _ key _ T') as [H|H]; congruence.
Qed.

(** The search of a key in an interval that holds its insertion point ends
    on the insertion point. *)
Lemma binsearch_loop_sorted (key : float) (lo hi : nat) :
  (lo <= binsearch s arr key)%nat -> (binsearch s arr key <= hi)%nat ->
  (hi <= length arr)%nat ->
  fst (binsearch_loop cmp arr key (length arr) lo hi) = binsearch s arr key.
Proof.
  intros Hlo Hhi Hlen.
  destruct (binsearch_spec key) as (R & T & F).
  destruct (binsearch_loop_spec cmp arr key (fun j k => sorted_downward key j k)
              (length arr) lo hi) as (R' & T' & F'); try lia.
  - intros k Hk. apply T. lia.
  - intros k Hk Hn. apply F; lia.
  - apply (insertion_point_unique cmp arr key); assumption.
Qed.

Lemma binsearch_keys_sorted (keys : list float) (last : float) (lo hi : nat) :
  (lo <= hi)%nat -> (hi <= length arr)%nat ->
  (forall key, cmp last key = true -> (lo <= binsearch s arr key)%nat) ->
  (forall key, cmp last key = false ->
     (binsearch s arr key <= hi + 1)%nat) ->
  binsearch_keys cmp arr keys last lo hi =
  map (fun key => Z.of_nat (binsearch s arr key)) keys.
Proof.
  revert last lo hi. induction keys as [|key keys IH]; intros last lo hi H1 H2 Hup Hdown;
    [reflexivity|].
  rewrite binsearch_keys_cons.
  destruct (start_bounds last key lo hi H1 H2) as [B1 B2].
  destruct (binsearch_loop_exit cmp arr key (length arr) _ _ B1 ltac:(lia))
    as (E & E1 & E2).
  destruct (binsearch_spec key) as (R & _ & _).
  assert (P : fst (binsearch_loop cmp arr key (length arr)
                     (fst (start last key lo hi)) (snd (start last key lo hi)))
              = binsearch s arr key).
  { apply binsearch_loop_sorted; [| |assumption].
    - unfold start. destruct (cmp last key) eqn:C; cbn [fst]; [now apply Hup|lia].
    - unfold start. destruct (cmp last key) eqn:C; cbn [snd]; [assumption|].
      specialize (Hdown key C). destruct (Nat.ltb_spec hi (length arr)); lia. }
  rewrite E, P. cbn [map]. f_equal.
  apply IH; try lia.
  - intros key' C. now apply binsearch_grows.
  - intros key' C. apply binsearch_shrinks in C. lia.
Qed.

Lemma searchsorted_sorted (v : list float) :
  searchsorted arr v s = map (fun key => Z.of_nat (binsearch s arr key)) v.
Proof.
  destruct v as [|key v]; [reflexivity|].
  unfold searchsorted. apply binsearch_keys_sorted; try lia.
  intros key' _. destruct (binsearch_spec key') as (R & _ & _). lia.
Qed.

End Batch.

(** Bisection over an array on which the comparison is constant. *)
Lemma binsearch_all_true (s : Side) (arr : list float) (key : float) :
  (forall k, (k < length arr)%nat -> side_cmp s (nth k arr F64.nan) key = true) ->
  binsearch s arr key = length arr.
Proof.
  intros H. unfold binsearch. apply binsearch_loop_all_true; try lia.
  intros k _ Hk. now apply H.
Qed.

Lemma binsearch_all_false (s : Side) (arr : list float) (key : float) :
  (forall k, (k < length arr)%nat -> side_cmp s (nth k arr F64.nan) key = false) ->
  binsearch s arr key = 0%nat.
Proof.
  intros H. unfold binsearch. apply binsearch_loop_all_false; try lia.
  intros k _ Hk. now apply H.
Qed.

(** A key at either end of the order of the array is given the result of
    its own search, whatever the array holds and whatever the other keys
    are. *)
Lemma searchsorted_extreme (arr v : list float) (s : Side) (j : nat) (q : float) :
  nth_error v j = Some q ->
  (forall k, (k < length arr)%nat -> side_cmp s (nth k arr F64.nan) q = true) \/
  (forall k, (k < length arr)%nat -> side_cmp s (nth k arr F64.nan) q = false) ->
  nth_error (searchsorted arr v s) j = Some (Z.of_nat (binsearch s arr q)).
Proof.
  intros Hj [H|H].
  - rewrite (binsearch_all_true s arr _ H). now apply searchsorted_below with (q := q).
  - rewrite (binsearch_all_false s arr _ H). now apply searchsorted_above with (q := q).
Qed.

(** ** Ordered grids *)

Lemma ascending_cons (x : float) (g : list float) :
  ascending (x :: g) = true ->
  ascending g = true /\ Forall (fun y => F64.ltb x y = true) g.
Proof.
  revert x. induction g as [|y g IH]; intros x H.
  - split; [reflexivity|constructor].
  - change (F64.ltb x y && ascending (y :: g) = true) in H.
    apply andb_true_iff in H as [Hxy Hg]. split; [assumption|].
    constructor; [assumption|].
    destruct (IH y Hg) as [_ Hall].
    eapply Forall_impl; [|exact Hall].
    intros z Hz. exact (F64Order.ltb_trans _ _ _ Hxy Hz).
Qed.

Lemma descending_cons (x : float) (g : list float) :
  descending (x :: g) = true ->
  descending g = true /\ Forall (fun y => F64.ltb y x = true) g.
Proof.
  revert x. induction g as [|y g IH]; intros x H.
  - split; [reflexivity|constructor].
  - change (F64.ltb y x && descending (y :: g) = true) in H.
    apply andb_true_iff in H as [Hxy Hg]. split; [assumption|].
    constructor; [assumption|].
    destruct (IH y Hg) as [_ Hall].
    eapply Forall_impl; [|exact Hall].
    intros z Hz. exact (F64Order.ltb_trans _ _ _ Hz Hxy).
Qed.

Lemma ascending_edges (g : list float) (i j : nat) :
  ascending g = true -> (i < j)%nat -> (j < length g)%nat ->
  F64.ltb (edge g i) (edge g j) = true.
Proof.
  unfold edge. revert i j. induction g as [|x g IH]; intros i j H Hij Hj.
  - simpl in Hj. lia.
  - destruct (ascending_cons x g H) as [Hg Hall].
    destruct j as [|j]; [lia|]. simpl in Hj.
    destruct i as [|i].
    + simpl. rewrite Forall_forall in Hall. apply Hall. apply nth_In. lia.
    + simpl. apply IH; auto; lia.
Qed.

Lemma descending_edges (g : list float) (i j : nat) :
  descending g = true -> (i < j)%nat -> (j < length g)%nat ->
  F64.ltb (edge g j) (edge g i) = true.
Proof.
  unfold edge. revert i j. induction g as [|x g IH]; intros i j H Hij Hj.
  - simpl in Hj. lia.
  - destruct (descending_cons x g H) as [Hg Hall].
    destruct j as [|j]; [lia|]. simpl in Hj.
    destruct i as [|i].
    + simpl. rewrite Forall_forall in Hall. apply Hall. apply nth_In. lia.
    + simpl. apply IH; auto; lia.
Qed.

(** A strictly monotonic grid of two edges or more holds no NaN. *)
Lemma ascending_not_nan (g : list float) (i : nat) :
  ascending g = true -> (2 <= length g)%nat -> (i < length g)%nat ->
  F64.is_nan (edge g i) = false.
Proof.
  intros H Hn Hi. destruct i as [|i].
  - apply (F64Order.ltb_not_nan _ (edge g 1)). apply ascending_edges; auto; lia.
  - apply (F64Order.ltb_not_nan (edge g 0)). apply ascending_edges; auto; lia.
Qed.

Lemma descending_not_nan (g : list float) (i : nat) :
  descending g = true -> (2 <= length g)%nat -> (i < length g)%nat ->
  F64.is_nan (edge g i) = false.
Proof.
  intros H Hn Hi. destruct i as [|i].
  - apply (F64Order.ltb_not_nan (edge g 1)). apply descending_edges; auto; lia.
  - apply (F64Order.ltb_not_nan _ (edge g 0)). apply descending_edges; auto; lia.
Qed.
Lemma getitem_nat (g : list float) (i : nat) :
  (i < length g)%nat -> getitem g (Z.of_nat i) = Ok (edge g i).
Proof.
  intros H. unfold getitem, edge.
  destruct (Z.leb_spec 0 (Z.of_nat i)); [|lia].
  destruct (Z.ltb_spec (Z.of_nat i) (Z.of_nat (length g))); [|lia].
  simpl. now rewrite Nat2Z.id.
Qed.

Lemma getitem_last (g : list float) :
  (1 <= length g)%nat -> getitem g (-1) = Ok (edge g (length g - 1)).
Proof.
  intros H. unfold getitem, edge.
  destruct (Z.leb_spec 0 (-1)); [lia|]. simpl.
  destruct (Z.leb_spec (- Z.of_nat (length g)) (-1)); [|lia]. simpl.
  do 2 f_equal. lia.
Qed.

Lemma getitem_short (g : list float) :
  (length g < 2)%nat -> getitem g 1 = Raise IndexError.
Proof.
  intros H. unfold getitem.
  destruct (Z.ltb_spec 1 (Z.of_nat (length g))); [lia|].
  destruct (Z.ltb_spec 1 0); [lia|].
  now rewrite !andb_false_r.
Qed.

Lemma map_adjust {A : Type} (k : A -> Z) (h : A -> bool) (l : list A) :
  map (fun '(i, b) => if b : bool then i - 1 else i) (combine (map k l) (map h l)) =
  map (fun x => if h x then k x - 1 else k x) l.
Proof.
  induction l as [|x l IH]; simpl; [reflexivity|]. now rewrite IH.
Qed.

Lemma world_to_image_indices (points g : list float) :
  (2 <= length g)%nat ->
  world_to_image points g =
  if forallb (in_image g) (pixel_indices g points)
  then Ok (pixel_indices g points) else Raise value_error.
Proof.
  intros Hn. unfold world_to_image.
  change 1 with (Z.of_nat 1) at 1. change 0 with (Z.of_nat 0) at 1.
  rewrite (getitem_nat g 1), (getitem_nat g 0), getitem_last by lia.
  cbn [bind]. fold (pixel_indices g points). unfold in_image.
  destruct (forallb _ _); reflexivity.
Qed.

Lemma pixel_indices_length (g points : list float) :
  length (pixel_indices g points) = length points.
Proof.
  unfold pixel_indices. rewrite length_map, length_combine.
  destruct (F64.ltb (edge g 1) (edge g 0));
    rewrite !length_map, searchsorted_length; lia.
Qed.

Lemma pixel_indices_nil (g : list float) : pixel_indices g [] = [].
Proof.
  unfold pixel_indices. now destruct (F64.ltb (edge g 1) (edge g 0)).
Qed.

(** A single point is given the index of [locate], on every grid. *)
Lemma pixel_indices_one (g : list float) (q : float) :
  pixel_indices g [q] = [locate g q].
Proof.
  unfold pixel_indices, locate. rewrite !searchsorted_one.
  destruct (F64.ltb (edge g 1) (edge g 0)); cbn [map combine];
    destruct (F64.eqb q (edge g (length g - 1))); reflexivity.
Qed.

(** So is every point of a batch when the array that is searched is
    sorted. *)
Lemma pixel_indices_sorted (g points : list float) :
  (if F64.ltb (edge g 1) (edge g 0) then np_sorted (rev g) else np_sorted g) ->
  pixel_indices g points = map (locate g) points.
Proof.
  intros H. unfold pixel_indices, locate.
  destruct (F64.ltb (edge g 1) (edge g 0));
    rewrite searchsorted_sorted by assumption;
    rewrite !map_map, map_adjust; reflexivity.
Qed.

Lemma world_to_image_short (points g : list float) :
  (length g < 2)%nat -> world_to_image points g = Raise IndexError.
Proof.
  intros H. unfold world_to_image. now rewrite getitem_short.
Qed.
(** ** NumPy's order against the order of binary64 *)

Lemma np_le_number (x q : float) :
  F64.is_nan x = false -> np_le x q = negb (F64.ltb q x).
Proof.
  intros Hx. unfold np_le, np_lt. rewrite Hx. simpl. now rewrite orb_false_r.
Qed.

Lemma np_lt_number (x q : float) :
  F64.is_nan x = false -> np_lt x q = F64.ltb x q || F64.is_nan q.
Proof.
  intros Hx. unfold np_lt. rewrite Hx. simpl. now rewrite andb_true_r.
Qed.

(** ** Where [locate] puts a point *)

Section Ascending.

Variable g : list float.
Hypothesis g_asc : ascending g = true.
Hypothesis g_len : (2 <= length g)%nat.

Lemma ascending_forward : F64.ltb (edge g 1) (edge g 0) = false.
Proof. apply F64Order.ltb_asym. apply ascending_edges; auto; lia. Qed.

Lemma ascending_le (i j : nat) (q : float) :
  (i <= j)%nat -> (j < length g)%nat ->
  F64.ltb q (edge g i) = true -> F64.ltb q (edge g j) = true.
Proof.
  intros Hij Hj H. destruct (Nat.eq_dec i j) as [->|Hne]; [assumption|].
  eapply F64Order.ltb_trans; [exact H|]. apply ascending_edges; auto; lia.
Qed.

Lemma right_spec (q : float) :
  let r := binsearch Right g q in
  (r <= length g)%nat /\
  (forall k, (k < r)%nat -> F64.ltb q (edge g k) = false) /\
  (forall k, (r <= k)%nat -> (k < length g)%nat -> F64.ltb q (edge g k) = true).
Proof.
  assert (E : forall k, (k < length g)%nat ->
            np_le (nth k g F64.nan) q = negb (F64.ltb q (edge g k))).
  { intros k Hk. apply np_le_number. now apply ascending_not_nan. }
  destruct (bisect_spec np_le g q) as (Hr & Hlo & Hup).
  { intros j k Hjk Hk. rewrite !E by lia. intros H.
    destruct (F64.ltb q (edge g j)) eqn:Hj; [|reflexivity].
    now rewrite (ascending_le j k q) in H. }
  unfold binsearch, side_cmp. cbv zeta. split; [assumption|]. split.
  - intros k Hk. specialize (Hlo k Hk). rewrite E in Hlo by lia.
    now apply negb_true_iff in Hlo.
  - intros k Hk Hn. specialize (Hup k Hk Hn). rewrite E in Hup by lia.
    now apply negb_false_iff in Hup.
Qed.

(** A point on the last edge is moved back into the last pixel. *)
Lemma locate_ascending_end (q : float) :
  F64.eqb q (edge g (length g - 1)) = true ->
  locate g q = Z.of_nat (length g) - 2.
Proof.
  intros Hq. unfold locate. rewrite ascending_forward, Hq.
  destruct (right_spec q) as (Hr & Hlo & Hup).
  assert (binsearch Right g q = length g) as ->; [|lia].
  destruct (Nat.eq_dec (binsearch Right g q) (length g)) as [|Hne]; [assumption|].
  assert (H : F64.ltb q (edge g (length g - 1)) = true) by (apply Hup; lia).
  rewrite (F64Order.ltb_not_eqb _ _ H) in Hq. discriminate.
Qed.

Lemma locate_ascending_inside (q : float) (i : nat) :
  F64.eqb q (edge g (length g - 1)) = false ->
  (i + 1 < length g)%nat ->
  (locate g q = Z.of_nat i <->
   F64.leb (edge g i) q = true /\ F64.ltb q (edge g (i + 1)) = true).
Proof.
  intros Hq Hi. unfold locate. rewrite ascending_forward, Hq.
  destruct (right_spec q) as (Hr & Hlo & Hup).
  split.
  - intros H. assert (Er : binsearch Right g q = S i) by lia.
    assert (H1 : F64.ltb q (edge g i) = false) by (apply Hlo; lia).
    assert (H2 : F64.ltb q (edge g (i + 1)) = true) by (apply Hup; lia).
    split; [|assumption].
    rewrite F64Order.leb_not_gtb, H1; auto.
    + apply ascending_not_nan; auto; lia.
    + now apply F64Order.ltb_not_nan in H2.
  - intros [H1 H2].
    rewrite F64Order.leb_not_gtb in H1.
    2: apply ascending_not_nan; auto; lia.
    2: now apply F64Order.ltb_not_nan in H2.
    apply negb_true_iff in H1.
    destruct (Nat.lt_ge_cases i (binsearch Right g q)) as [Hlt|Hge].
    + destruct (Nat.lt_ge_cases (i + 1) (binsearch Right g q)) as [Hlt'|Hge'].
      * rewrite (Hlo (i + 1)%nat Hlt') in H2. discriminate.
      * lia.
    + rewrite (Hup i Hge) in H1 by lia. discriminate.
Qed.

End Ascending.

Section Descending.

Variable g : list float.
Hypothesis g_desc : descending g = true.
Hypothesis g_len : (2 <= length g)%nat.

Lemma descending_backward : F64.ltb (edge g 1) (edge g 0) = true.
Proof. apply descending_edges; auto; lia. Qed.

Lemma descending_le (i j : nat) (q : float) :
  (i <= j)%nat -> (j < length g)%nat ->
  F64.ltb (edge g i) q = true -> F64.ltb (edge g j) q = true.
Proof.
  intros Hij Hj H. destruct (Nat.eq_dec i j) as [->|Hne]; [assumption|].
  eapply F64Order.ltb_trans; [|exact H]. apply descending_edges; auto; lia.
Qed.

(** The search runs over the reversed grid; [n - (r + 1)] is the last
    edge that is not below the point. *)
Lemma left_spec (q : float) :
  let r := binsearch Left (rev g) q in
  (r <= length g)%nat /\
  (forall k, (k < length g)%nat -> (length g - r <= k)%nat ->
     np_lt (edge g k) q = true) /\
  (forall k, (k < length g - r)%nat -> np_lt (edge g k) q = false).
Proof.
  assert (E : forall k, (k < length g)%nat ->
            nth k (rev g) F64.nan = edge g (length g - S k)).
  { intros k Hk. now apply rev_nth. }
  assert (N : forall k, (k < length g)%nat ->
            np_lt (edge g k) q = F64.ltb (edge g k) q || F64.is_nan q).
  { intros k Hk. apply np_lt_number. now apply descending_not_nan. }
  destruct (bisect_spec np_lt (rev g) q) as (Hr & Hlo & Hup).
  { rewrite length_rev. intros j k Hjk Hk. rewrite !E, !N by lia. intros H.
    apply orb_true_iff in H as [H|H]; apply orb_true_iff; [left|now right].
    apply (descending_le (length g - S k) (length g - S j)); auto; lia. }
  rewrite length_rev in Hr, Hlo, Hup.
  unfold binsearch, side_cmp. rewrite length_rev. cbv zeta. split; [assumption|]. split.
  - intros k Hk Hge. specialize (Hlo (length g - S k)%nat).
    rewrite E in Hlo by lia. replace (length g - S (length g - S k))%nat with k in Hlo by lia.
    apply Hlo. lia.
  - intros k Hk. specialize (Hup (length g - S k)%nat).
    rewrite E in Hup by lia. replace (length g - S (length g - S k))%nat with k in Hup by lia.
    apply Hup; lia.
Qed.

Lemma locate_descending_end (q : float) :
  F64.eqb q (edge g (length g - 1)) = true ->
  locate g q = Z.of_nat (length g) - 2.
Proof.
  intros Hq. unfold locate. rewrite descending_backward, Hq.
  destruct (left_spec q) as (Hr & Hlo & Hup).
  assert (binsearch Left (rev g) q = 0%nat) as ->; [|lia].
  destruct (binsearch Left (rev g) q) as [|r]; [reflexivity|].
  assert (H : np_lt (edge g (length g - 1)) q = true) by (apply Hlo; lia).
  rewrite np_lt_number in H by (apply descending_not_nan; auto; lia).
  apply orb_true_iff in H as [H|H].
  - rewrite (F64Order.gtb_not_eqb _ _ H) in Hq. discriminate.
  - apply F64Order.eqb_not_nan in Hq. destruct Hq; congruence.
Qed.

Lemma locate_descending_inside (q : float) (i : nat) :
  F64.eqb q (edge g (length g - 1)) = false ->
  (i + 1 < length g)%nat ->
  (locate g q = Z.of_nat i <->
   F64.leb q (edge g i) = true /\ F64.ltb (edge g (i + 1)) q = true).
Proof.
  intros Hq Hi. unfold locate. rewrite descending_backward, Hq.
  destruct (left_spec q) as (Hr & Hlo & Hup).
  assert (N : forall k, (k < length g)%nat ->
            np_lt (edge g k) q = F64.ltb (edge g k) q || F64.is_nan q).
  { intros k Hk. apply np_lt_number. now apply descending_not_nan. }
  split.
  - intros H.
    assert (H1 : np_lt (edge g i) q = false) by (apply Hup; lia).
    assert (H2 : np_lt (edge g (i + 1)) q = true) by (apply Hlo; lia).
    rewrite N in H1, H2 by lia.
    apply orb_false_iff in H1 as [H1 Hnan]. rewrite Hnan, orb_false_r in H2.
    split; [|assumption].
    rewrite F64Order.leb_not_gtb, H1; auto.
    apply descending_not_nan; auto; lia.
  - intros [H1 H2].
    assert (Hnan : F64.is_nan q = false) by (now apply F64Order.ltb_not_nan in H2).
    rewrite F64Order.leb_not_gtb in H1; auto.
    2: apply descending_not_nan; auto; lia.
    apply negb_true_iff in H1.
    destruct (Nat.lt_ge_cases i (length g - binsearch Left (rev g) q)) as [Hlt|Hge].
    + destruct (Nat.lt_ge_cases (i + 1) (length g - binsearch Left (rev g) q))
        as [Hlt'|Hge'].
      * specialize (Hup (i + 1)%nat Hlt'). rewrite N, H2 in Hup by lia. discriminate.
      * lia.
    + assert (H : np_lt (edge g i) q = true) by (apply Hlo; lia).
      rewrite N, H1, Hnan in H by lia. discriminate.
Qed.

End Descending.

(** ** Batches on a strictly monotonic grid *)

Lemma np_lt_irrefl (x : float) : np_lt x x = false.
Proof.
  unfold np_lt. rewrite F64Order.ltb_irrefl. now destruct (F64.is_nan x).
Qed.

Lemma np_lt_below (x y : float) : F64.ltb x y = true -> np_lt y x = false.
Proof.
  intros H. unfold np_lt. rewrite (F64Order.ltb_asym _ _ H).
  destruct (F64Order.ltb_not_nan _ _ H) as [-> _]. reflexivity.
Qed.

(** An ascending grid is sorted, a descending grid is sorted once
    reversed: the array [world_to_image] searches is sorted in both
    cases. *)
Lemma ascending_np_sorted (g : list float) : ascending g = true -> np_sorted g.
Proof.
  intros Hg j k Hjk Hk. destruct (Nat.eq_dec j k) as [->|Hne]; [apply np_lt_irrefl|].
  apply np_lt_below. apply (ascending_edges g j k); auto; lia.
Qed.

Lemma descending_np_sorted (g : list float) : descending g = true -> np_sorted (rev g).
Proof.
  intros Hg j k Hjk Hk. rewrite length_rev in Hk.
  destruct (Nat.eq_dec j k) as [->|Hne]; [apply np_lt_irrefl|].
  rewrite !rev_nth by lia. apply np_lt_below.
  apply (descending_edges g (length g - S k) (length g - S j)); auto; lia.
Qed.

Lemma world_to_image_locate (points g : list float) :
  strictly_monotonic g = true -> (2 <= length g)%nat ->
  world_to_image points g =
  if forallb (in_image g) (map (locate g) points)
  then Ok (map (locate g) points) else Raise value_error.
Proof.
  intros Hg Hn. rewrite world_to_image_indices by assumption.
  rewrite pixel_indices_sorted; [reflexivity|].
  apply orb_true_iff in Hg as [Hg|Hg].
  - rewrite ascending_forward by assumption. now apply ascending_np_sorted.
  - rewrite descending_backward by assumption. now apply descending_np_sorted.
Qed.

(** ** Points on an edge *)

Lemma eqb_refl (x : float) : F64.is_nan x = false -> F64.eqb x x = true.
Proof.
  intros H. destruct (F64Order.trichotomy x x H H) as [G|[G|G]]; auto;
    rewrite F64Order.ltb_irrefl in G; discriminate.
Qed.

(** A strictly monotonic grid of three edges or more runs one way only. *)
Lemma ascending_not_descending (g : list float) :
  (2 <= length g)%nat -> ascending g = true -> descending g = false.
Proof.
  intros Hn H. destruct (descending g) eqn:D; [|reflexivity].
  rewrite <- (ascending_forward g H Hn). symmetry. now apply descending_backward.
Qed.

(** A point that equals edge [i], other than the last edge, lies in pixel
    [i]: the intervals are closed on the side of their own edge. *)
Lemma locate_on_edge (g : list float) (q : float) (i : nat) :
  strictly_monotonic g = true -> (i + 1 < length g)%nat ->
  F64.eqb q (edge g i) = true -> locate g q = Z.of_nat i.
Proof.
  intros Hg Hi Hq. apply orb_true_iff in Hg as [Hg|Hg].
  - assert (Hlast : F64.ltb q (edge g (length g - 1)) = true).
    { eapply F64Order.eqb_ltb_trans; [exact Hq|].
      apply ascending_edges; auto; lia. }
    apply (locate_ascending_inside g Hg); try lia.
    + now apply F64Order.ltb_not_eqb.
    + split.
      * rewrite F64Order.leb_spec, (F64Order.eqb_sym (edge g i) q), Hq.
        apply orb_true_r.
      * eapply F64Order.eqb_ltb_trans; [exact Hq|].
        apply ascending_edges; auto; lia.
  - assert (Hlast : F64.ltb (edge g (length g - 1)) q = true).
    { eapply F64Order.ltb_eqb_trans.
      - apply (descending_edges g i); auto; lia.
      - now rewrite F64Order.eqb_sym. }
    apply (locate_descending_inside g Hg); try lia.
    + now apply F64Order.gtb_not_eqb.
    + split.
      * rewrite F64Order.leb_spec, Hq. apply orb_true_r.
      * eapply F64Order.ltb_eqb_trans.
        -- apply (descending_edges g i); auto; lia.
        -- now rewrite F64Order.eqb_sym.
Qed.

(** A point that equals the last edge lies in the last pixel. *)
Lemma locate_on_end (g : list float) (q : float) :
  strictly_monotonic g = true -> (2 <= length g)%nat ->
  F64.eqb q (edge g (length g - 1)) = true ->
  locate g q = Z.of_nat (length g) - 2.
Proof.
  intros Hg Hn Hq. apply orb_true_iff in Hg as [Hg|Hg].
  - now apply locate_ascending_end.
  - now apply locate_descending_end.
Qed.

Lemma world_to_image_one (g : list float) (q : float) (k : Z) :
  (2 <= length g)%nat ->
  (world_to_image [q] g = Ok [k] <-> locate g q = k /\ in_image g k = true).
Proof.
  intros Hn. rewrite world_to_image_indices, pixel_indices_one by assumption. simpl.
  rewrite andb_true_r. split.
  - destruct (in_image g (locate g q)) eqn:E; [|discriminate].
    intros H. injection H as H. subst. auto.
  - intros [-> ->]. reflexivity.
Qed.

Lemma in_image_pixel (g : list float) (i : nat) :
  (i + 1 < length g)%nat -> in_image g (Z.of_nat i) = true.
Proof.
  intros H. unfold in_image. apply andb_true_iff. split.
  - apply Z.leb_le. lia.
  - apply Z.ltb_lt. lia.
Qed.
(** ** Forward lookup *)

Lemma mapM_getitem (g : list float) (l : list nat) :
  Forall (fun i => (i < length g)%nat) l ->
  mapM (getitem g) (map Z.of_nat l) = Ok (map (edge g) l).
Proof.
  induction 1 as [|i l Hi Hl IH]; simpl; [reflexivity|].
  now rewrite getitem_nat, IH.
Qed.

Lemma image_to_world_pixel (g : list float) (i : nat) :
  (i + 1 < length g)%nat ->
  image_to_world (array1 int64 [Z.of_nat i]) (array1 float64 g) =
  Ok (array1 float64 [edge g i]).
Proof.
  intros Hi. unfold image_to_world, shape0. cbn [ndim dtype items array1].
  cbn [Nat.eqb Dtype_eqb assert bind forallb].
  destruct (Z.leb_spec 0 (Z.of_nat i)); [|lia].
  destruct (Z.ltb_spec (Z.of_nat i) (Z.of_nat (length g) - 1)); [|lia].
  cbn [andb assert bind].
  change [Z.of_nat i] with (map Z.of_nat [i]).
  rewrite mapM_getitem; [reflexivity|].
  constructor; [lia|constructor].
Qed.

(** C2: half-open interval ownership. On a strictly monotonic grid, for
    every pixel [i] but the last one, [world_to_image] maps a point [q] to
    [i] exactly when [q] lies in [[edge i, edge (i+1))] in the grid's
    direction: [edge i <= q < edge (i+1)] on an ascending grid,
    [edge i >= q > edge (i+1)] on a descending one. *)
Theorem half_open_ownership (g : list float) (q : float) (i : nat) :
  strictly_monotonic g = true -> (i + 2 < length g)%nat ->
  (world_to_image [q] g = Ok [Z.of_nat i] <->
   (ascending g = true /\
    F64.leb (edge g i) q = true /\ F64.ltb q (edge g (i + 1)) = true) \/
   (descending g = true /\
    F64.leb q (edge g i) = true /\ F64.ltb (edge g (i + 1)) q = true)).
Proof.
  intros Hg Hi.
  rewrite world_to_image_one by lia.
  rewrite in_image_pixel by lia.
  destruct (F64.eqb q (edge g (length g - 1))) eqn:Hq.
  - (* on the last edge: the last pixel, and outside every half-open interval *)
    rewrite (locate_on_end g q Hg) by (lia || assumption).
    split; [intros [H _]; lia|].
    intros [(Ha & H1 & H2)|(Hd & H1 & H2)]; exfalso.
    + assert (H : F64.ltb q (edge g (length g - 1)) = true).
      { eapply F64Order.ltb_trans; [exact H2|]. apply ascending_edges; auto; lia. }
      rewrite (F64Order.ltb_not_eqb _ _ H) in Hq. discriminate.
    + assert (H : F64.ltb (edge g (length g - 1)) q = true).
      { eapply F64Order.ltb_trans; [|exact H2]. apply descending_edges; auto; lia. }
      rewrite (F64Order.gtb_not_eqb _ _ H) in Hq. discriminate.
  - apply orb_true_iff in Hg as [Hg|Hg].
    + rewrite (locate_ascending_inside g Hg) by (lia || assumption).
      rewrite Hg, (ascending_not_descending g) by (lia || assumption).
      intuition discriminate.
    + destruct (ascending g) eqn:Ha.
      * rewrite (ascending_not_descending g) in Hg by (lia || assumption).
        discriminate.
      * rewrite (locate_descending_inside g Hg) by (lia || assumption).
        intuition discriminate.
Qed.

Lemma half_open_ownership_witness :
  let g := map F64.of_int [0; 1; 2; 3] in
  let q := F64.of_dyadic 3 (-1) in
  strictly_monotonic g = true /\ (1 + 2 < length g)%nat /\
  world_to_image [q] g = Ok [1].
Proof.
  split; [reflexivity|]. split; [simpl; lia|].
  apply (half_open_ownership (map F64.of_int [0; 1; 2; 3]) (F64.of_dyadic 3 (-1)) 1).
  - reflexivity.
  - simpl. lia.
  - left. split; [reflexivity|]. split; reflexivity.
Defined.
(** Off the last edge, a point goes to the pixel that owns it. *)
Lemma locate_owns (g : list float) (q : float) (i : nat) :
  strictly_monotonic g = true -> (i + 1 < length g)%nat ->
  F64.eqb q (edge g (length g - 1)) = false ->
  (locate g q = Z.of_nat i <-> owns g i q = true).
Proof.
  intros Hg Hi Hq. unfold owns. apply orb_true_iff in Hg as [Hg|Hg].
  - rewrite (locate_ascending_inside g Hg) by (lia || assumption).
    rewrite Hg, (ascending_not_descending g) by (lia || assumption).
    simpl. rewrite orb_false_r, andb_true_iff. reflexivity.
  - destruct (ascending g) eqn:Ha.
    + rewrite (ascending_not_descending g) in Hg by (lia || assumption).
      discriminate.
    + rewrite (locate_descending_inside g Hg) by (lia || assumption).
      rewrite Hg. simpl. rewrite andb_true_iff. reflexivity.
Qed.

(** C4: boundary closure. On a strictly monotonic grid a point equal to
    the last edge is mapped to pixel [pixel_count - 1], with no error; and
    the closure applies at that point only: every other point that is
    mapped to a pixel lies in that pixel's half-open interval. *)
Theorem boundary_closure (g : list float) (q : float) :
  strictly_monotonic g = true -> (2 <= length g)%nat ->
  (F64.eqb q (edge g (length g - 1)) = true ->
   world_to_image [q] g = Ok [Z.of_nat (length g - 1) - 1]) /\
  (F64.eqb q (edge g (length g - 1)) = false ->
   forall k : Z, world_to_image [q] g = Ok [k] ->
   exists i : nat, k = Z.of_nat i /\ (i + 1 < length g)%nat /\ owns g i q = true).
Proof.
  intros Hg Hn. split.
  - intros Hq. apply world_to_image_one; [assumption|]. split.
    + rewrite (locate_on_end g q) by assumption. lia.
    + replace (Z.of_nat (length g - 1) - 1) with (Z.of_nat (length g - 2)) by lia.
      apply in_image_pixel. lia.
  - intros Hq k H. apply world_to_image_one in H as [Hk Hin]; [|assumption].
    unfold in_image in Hin. apply andb_true_iff in Hin as [H0 H1].
    apply Z.leb_le in H0. apply Z.ltb_lt in H1.
    exists (Z.to_nat k). rewrite Z2Nat.id by assumption.
    split; [reflexivity|]. split; [lia|].
    apply locate_owns; auto; lia.
Qed.

Lemma boundary_closure_witness :
  let g := map F64.of_int [0; 1; 2; 3] in
  strictly_monotonic g = true /\ (2 <= length g)%nat /\
  world_to_image [F64.of_int 3] g = Ok [2].
Proof.
  split; [reflexivity|]. split; [simpl; lia|].
  apply (boundary_closure (map F64.of_int [0; 1; 2; 3]) (F64.of_int 3)).
  - reflexivity.
  - simpl. lia.
  - reflexivity.
Defined.

(** C1, as amended: round trip. On a strictly monotonic grid, for every
    pixel index [i] with [0 <= i < pixel_count], [image_to_world] returns
    edge [i] and [world_to_image] maps it back to [i]. *)
Theorem round_trip_identity (g : list float) (i : nat) :
  strictly_monotonic g = true -> (i + 1 < length g)%nat ->
  round_trip [Z.of_nat i] g = Ok [Z.of_nat i].
Proof.
  intros Hg Hi. unfold round_trip.
  rewrite image_to_world_pixel by assumption. cbn [bind items array1].
  apply world_to_image_one; [lia|]. split.
  - apply locate_on_edge; auto. apply eqb_refl.
    apply orb_true_iff in Hg as [Hg|Hg].
    + apply ascending_not_nan; auto; lia.
    + apply descending_not_nan; auto; lia.
  - now apply in_image_pixel.
Qed.

Lemma round_trip_identity_witness :
  let g := map F64.of_int [3; 2; 1; 0] in
  strictly_monotonic g = true /\ (2 + 1 < length g)%nat /\
  round_trip [2] g = Ok [2].
Proof.
  split; [reflexivity|]. split; [simpl; lia|].
  apply (round_trip_identity (map F64.of_int [3; 2; 1; 0]) 2).
  - reflexivity.
  - simpl. lia.
Defined.

(** The grid of a raster two pixels wide, with pixel size [1.0] and origin
    [2^53]: the edge [2^53 + 1] rounds to [2^53], so pixels 0 and 1 share
    their edge, and pixel 0 comes back as pixel 1. *)
Lemma round_trip_collapsed_grid :
  let t := mk_Affine F64.one F64.zero (F64.of_int (2 ^ 53))
                     F64.zero F64.minus_one F64.zero in
  is_rectilinear t = true /\
  F64.eqb (a t) F64.zero = false /\ F64.eqb (e t) F64.zero = false /\
  exists gx gy : list float,
    pixel_coordinates 2 2 t = Ok (gx, gy) /\
    edge gx 0 = F64.of_int (2 ^ 53) /\ edge gx 1 = F64.of_int (2 ^ 53) /\
    round_trip [0] gx = Ok [1].
Proof.
  cbv zeta. split; [reflexivity|]. split; [reflexivity|]. split; [reflexivity|].
  eexists. eexists. split; [vm_compute; reflexivity|].
  split; [reflexivity|]. split; reflexivity.
Qed.
(** ** Points outside the grid *)

Lemma forallb_edge (P : float -> bool) (g : list float) (k : nat) :
  forallb P g = true -> (k < length g)%nat -> P (edge g k) = true.
Proof.
  intros H Hk. rewrite forallb_forall in H. apply H. now apply nth_In.
Qed.

Lemma np_lt_above (x q : float) : F64.ltb x q = true -> np_lt x q = true /\ np_lt q x = false.
Proof.
  intros H. unfold np_lt. rewrite H, (F64Order.ltb_asym _ _ H).
  destruct (F64Order.ltb_not_nan _ _ H) as [-> ->]. auto.
Qed.

(** A point below every edge, or above every edge, is located outside the
    image, whatever the grid holds. *)
Lemma locate_outside (g : list float) (q : float) :
  (2 <= length g)%nat -> outside g q = true -> in_image g (locate g q) = false.
Proof.
  intros Hn H. unfold outside in H. apply orb_true_iff in H as [H|H].
  - (* below every edge *)
    assert (Hend : F64.eqb q (edge g (length g - 1)) = false).
    { apply F64Order.ltb_not_eqb. apply (forallb_edge _ g); [exact H|lia]. }
    unfold locate. rewrite Hend.
    destruct (F64.ltb (edge g 1) (edge g 0)).
    + rewrite binsearch_all_false.
      * unfold in_image.
        destruct (Z.ltb_spec (Z.of_nat (length g) - (Z.of_nat 0 + 1))
                    (Z.of_nat (length g) - 1)); [lia|apply andb_false_r].
      * rewrite length_rev. intros k Hk. rewrite rev_nth by assumption.
        apply np_lt_above. apply (forallb_edge _ g); [exact H|lia].
    + rewrite binsearch_all_false.
      * reflexivity.
      * intros k Hk. simpl. unfold np_le. apply negb_false_iff.
        apply np_lt_above. apply (forallb_edge _ g); [exact H|lia].
  - (* above every edge *)
    assert (Hend : F64.eqb q (edge g (length g - 1)) = false).
    { apply F64Order.gtb_not_eqb.
      apply (forallb_edge (fun x => F64.ltb x q) g); [exact H|lia]. }
    unfold locate. rewrite Hend.
    destruct (F64.ltb (edge g 1) (edge g 0)).
    + rewrite binsearch_all_true.
      * rewrite length_rev. unfold in_image.
        destruct (Z.leb_spec 0 (Z.of_nat (length g) - (Z.of_nat (length g) + 1)));
          [lia|reflexivity].
      * rewrite length_rev. intros k Hk. rewrite rev_nth by assumption.
        apply np_lt_above. apply (forallb_edge (fun x => F64.ltb x q) g); [exact H|lia].
    + rewrite binsearch_all_true.
      * unfold in_image.
        destruct (Z.ltb_spec (Z.of_nat (length g) - 1) (Z.of_nat (length g) - 1));
          [lia|apply andb_false_r].
      * intros k Hk. simpl. unfold np_le. apply negb_true_iff.
        apply np_lt_above. apply (forallb_edge (fun x => F64.ltb x q) g); [exact H|lia].
Qed.

Lemma nth_error_combine {A B : Type} (l : list A) (l' : list B) (j : nat)
    (x : A) (y : B) :
  nth_error l j = Some x -> nth_error l' j = Some y ->
  nth_error (combine l l') j = Some (x, y).
Proof.
  revert l' j. induction l as [|u l IH]; intros [|v l'] [|j] Hx Hy;
    try discriminate; cbn in *.
  - congruence.
  - now apply IH.
Qed.

(** A point outside the grid is at one end of the order of the edges. *)
Lemma outside_side_cmp (g : list float) (q : float) (s : Side) :
  outside g q = true ->
  (forall x, In x g -> side_cmp s x q = true) \/
  (forall x, In x g -> side_cmp s x q = false).
Proof.
  intros H. unfold outside in H. apply orb_true_iff in H as [H|H];
    rewrite forallb_forall in H; [right|left]; intros x Hx;
    destruct (np_lt_above _ _ (H x Hx)) as [H1 H2];
    destruct s; simpl; unfold np_le; rewrite ?H1, ?H2; reflexivity.
Qed.

(** So it is given the index of [locate], whatever the grid holds and
    whatever the other points of the batch are. *)
Lemma pixel_indices_outside (g points : list float) (j : nat) (q : float) :
  nth_error points j = Some q -> outside g q = true ->
  nth_error (pixel_indices g points) j = Some (locate g q).
Proof.
  intros Hj Hout. unfold pixel_indices, locate.
  rewrite nth_error_map.
  rewrite (nth_error_combine _ _ j
             (if F64.ltb (edge g 1) (edge g 0)
              then Z.of_nat (length g) - (Z.of_nat (binsearch Left (rev g) q) + 1)
              else Z.of_nat (binsearch Right g q) - 1)
             (F64.eqb q (edge g (length g - 1)))).
  - reflexivity.
  - destruct (F64.ltb (edge g 1) (edge g 0)).
    + rewrite !nth_error_map, (searchsorted_extreme _ _ _ j q Hj); [reflexivity|].
      destruct (outside_side_cmp g q Left Hout) as [H|H]; [left|right];
        intros k Hk; apply H; apply in_rev; now apply nth_In.
    + rewrite nth_error_map, (searchsorted_extreme _ _ _ j q Hj); [reflexivity|].
      destruct (outside_side_cmp g q Right Hout) as [H|H]; [left|right];
        intros k Hk; apply H; now apply nth_In.
  - now rewrite nth_error_map, Hj.
Qed.

(** C5, as amended: out-of-bounds rejection. On every grid of two edges
    or more, if any point of the batch lies outside the closed interval the
    grid spans, [world_to_image] raises [ValueError] with the fixed message
    "Queried location is not in the image": the whole call fails, nothing
    is returned, no index is clamped or wrapped. *)
Theorem out_of_bounds_rejected (points g : list float) :
  (2 <= length g)%nat -> existsb (outside g) points = true ->
  world_to_image points g = Raise value_error.
Proof.
  intros Hn H. rewrite world_to_image_indices by assumption.
  destruct (forallb (in_image g) (pixel_indices g points)) eqn:E; [|reflexivity].
  apply existsb_exists in H as (q & Hq & Hout).
  apply In_nth_error in Hq as [j Hj].
  rewrite forallb_forall in E.
  pose proof (locate_outside g q Hn Hout) as Hf.
  rewrite (E (locate g q)) in Hf; [discriminate|].
  apply (nth_error_In _ j). now apply pixel_indices_outside.
Qed.

Lemma out_of_bounds_rejected_witness :
  let g := map F64.of_int [0; 1; 2; 3] in
  (2 <= length g)%nat /\
  existsb (outside g) [F64.of_int 1; F64.of_dyadic 0x18cccccccccccd (-51)] = true /\
  world_to_image [F64.of_int 1; F64.of_dyadic 0x18cccccccccccd (-51)] g = Raise value_error.
Proof.
  split; [simpl; lia|]. split; [reflexivity|].
  apply (out_of_bounds_rejected
           [F64.of_int 1; F64.of_dyadic 0x18cccccccccccd (-51)]
           (map F64.of_int [0; 1; 2; 3])).
  - simpl. lia.
  - reflexivity.
Defined.

(** The exception is the same for every point and every grid: it names
    neither the failing coordinate nor the range of the grid. *)
Lemma out_of_bounds_error_names_nothing :
  ~ exists coordinate : exception -> float,
      forall (g : list float) (q : float) (err : exception),
        (2 <= length g)%nat -> outside g q = true ->
        world_to_image [q] g = Raise err ->
        F64.eqb (coordinate err) q = true.
Proof.
  intros [coordinate H].
  pose (g := map F64.of_int [0; 1; 2; 3]).
  assert (H4 := H g (F64.of_int 4) value_error ltac:(simpl; lia) eq_refl eq_refl).
  assert (H5 := H g (F64.of_int 5) value_error ltac:(simpl; lia) eq_refl eq_refl).
  rewrite F64Order.eqb_sym in H4.
  apply F64Order.eqb_compare in H4, H5.
  pose proof (F64Order.compare_eq_l _ _ _ _ H4 H5) as C.
  vm_compute in C. discriminate.
Qed.
(** ** Forward lookup: range, shape and dtype *)

Lemma forallb_andb {A : Type} (P Q : A -> bool) (l : list A) :
  forallb (fun x => P x && Q x) l = forallb P l && forallb Q l.
Proof.
  induction l as [|x l IH]; simpl; [reflexivity|].
  rewrite IH. destruct (P x), (Q x), (forallb P l); reflexivity.
Qed.

Lemma forallb_in_image (g : list float) (l : list Z) :
  forallb (in_image g) l =
  forallb (fun i => 0 <=? i) l && forallb (fun i => i <? Z.of_nat (length g) - 1) l.
Proof.
  exact (forallb_andb (fun i => 0 <=? i) (fun i => i <? Z.of_nat (length g) - 1) l).
Qed.

Lemma mapM_getitem_in_image (g : list float) (indices : list Z) :
  forallb (in_image g) indices = true ->
  mapM (getitem g) indices = Ok (map (fun i => edge g (Z.to_nat i)) indices).
Proof.
  induction indices as [|i l IH]; simpl; [reflexivity|].
  intros H. apply andb_true_iff in H as [Hi Hl].
  unfold in_image in Hi. apply andb_true_iff in Hi as [H0 H1].
  apply Z.leb_le in H0. apply Z.ltb_lt in H1.
  rewrite <- (Z2Nat.id i) at 1 by assumption.
  rewrite getitem_nat by lia. rewrite IH by assumption. reflexivity.
Qed.

(** C8, as amended: the forward lookup's range check. For a
    one-dimensional [int64] index array and a one-dimensional [float64]
    grid, if any index is negative or not below [len(grid) - 1],
    [image_to_world] raises a bare [AssertionError] (no index is clamped,
    and the exception holds nothing); otherwise it returns the edge at
    each index. *)
Theorem forward_lookup_range (indices : list Z) (g : list float) :
  image_to_world (array1 int64 indices) (array1 float64 g) =
  if forallb (in_image g) indices
  then Ok (array1 float64 (map (fun i => edge g (Z.to_nat i)) indices))
  else Raise AssertionError.
Proof.
  unfold image_to_world, shape0. cbn [ndim dtype items array1].
  cbn [Nat.eqb Dtype_eqb assert bind].
  rewrite forallb_in_image.
  destruct (forallb (fun i => 0 <=? i) indices) eqn:H0; [|reflexivity].
  destruct (forallb (fun i => i <? Z.of_nat (length g) - 1) indices) eqn:H1;
    [|reflexivity].
  cbn [andb assert bind].
  rewrite mapM_getitem_in_image; [reflexivity|].
  rewrite forallb_in_image, H0, H1. reflexivity.
Qed.

(** Index [5] and index [-1] fail with the same exception: it cannot
    identify the offending index. *)
Lemma assertion_error_names_no_index :
  ~ exists offender : exception -> Z,
      forall (indices : list Z) (g : list float) (err : exception),
        image_to_world (array1 int64 indices) (array1 float64 g) = Raise err ->
        In (offender err) indices.
Proof.
  intros [offender H].
  pose (g := map F64.of_int [0; 1; 2; 3]).
  destruct (H [5] g AssertionError eq_refl) as [H5|[]].
  destruct (H [-1] g AssertionError eq_refl) as [H1|[]].
  congruence.
Qed.

(** C9: empty batches. On a grid of two edges or more, [image_to_world] of
    an empty index array and [world_to_image] of an empty array of points
    return an empty array and raise nothing. *)
Theorem empty_batches (g : list float) :
  (2 <= length g)%nat ->
  image_to_world (array1 int64 []) (array1 float64 g) = Ok (array1 float64 []) /\
  world_to_image [] g = Ok [].
Proof.
  intros Hn. split.
  - reflexivity.
  - rewrite world_to_image_indices, pixel_indices_nil by assumption. reflexivity.
Qed.

Lemma empty_batches_witness :
  let g := map F64.of_int [0; 1; 2; 3] in
  (2 <= length g)%nat /\
  image_to_world (array1 int64 []) (array1 float64 g) = Ok (array1 float64 []) /\
  world_to_image [] g = Ok [].
Proof.
  split; [simpl; lia|].
  apply (empty_batches (map F64.of_int [0; 1; 2; 3])). simpl. lia.
Defined.

(** C10: shape and dtype. [image_to_world] fails on an assertion, before
    any lookup, unless the indices are a one-dimensional [int64] array and
    the grid a one-dimensional [float64] array, whatever the indices hold. *)
Theorem forward_lookup_shape_dtype (indices : ndarray Z) (g : ndarray float) :
  ndim indices <> 1%nat \/ dtype indices <> int64 \/
  ndim g <> 1%nat \/ dtype g <> float64 ->
  image_to_world indices g = Raise AssertionError.
Proof.
  intros H. unfold image_to_world.
  destruct (Nat.eqb_spec (ndim indices) 1) as [E1|N1]; [|reflexivity].
  cbn [assert bind].
  destruct (dtype indices) eqn:D1; try reflexivity.
  cbn [Dtype_eqb assert bind].
  destruct (Nat.eqb_spec (ndim g) 1) as [E2|N2]; [|reflexivity].
  cbn [assert bind].
  destruct (dtype g) eqn:D2; try reflexivity.
  exfalso. destruct H as [H|[H|[H|H]]]; congruence.
Qed.

(** Indices [0] and [1] lie in a raster of three pixels, but as [int32]
    they are refused. *)
Lemma forward_lookup_shape_dtype_witness :
  let g := array1 float64 (map F64.of_int [0; 1; 2; 3]) in
  let indices := array1 int32 [0; 1] in
  forallb (in_image (items g)) (items indices) = true /\
  image_to_world indices g = Raise AssertionError.
Proof.
  split; [reflexivity|].
  apply (forward_lookup_shape_dtype
           (array1 int32 [0; 1]) (array1 float64 (map F64.of_int [0; 1; 2; 3]))).
  right; left. discriminate.
Defined.

(** ** The builder's precondition *)

(** C7, as amended: [pixel_coordinates] raises exactly when the transform
    is not rectilinear, and then an [AssertionError]; with a rectilinear
    transform it returns the two grids whatever the scales, the width and
    the height are: [max 0 (width + 1)] and [max 0 (height + 1)] edges. *)
Theorem builder_precondition (width height : Z) (t : Affine) :
  (pixel_coordinates width height t = Raise AssertionError <->
   is_rectilinear t = false) /\
  (is_rectilinear t = true <->
   exists gx gy : list float,
     pixel_coordinates width height t = Ok (gx, gy) /\
     Z.of_nat (length gx) = Z.max 0 (width + 1) /\
     Z.of_nat (length gy) = Z.max 0 (height + 1)).
Proof.
  unfold pixel_coordinates.
  destruct (is_rectilinear t); cbn [assert bind]; split; split;
    try discriminate; try reflexivity.
  - intros _. eexists. eexists. split; [reflexivity|].
    unfold arange. rewrite !length_map, !length_seq. lia.
  - intros (gx & gy & H & _). discriminate.
Qed.

(** Width [0] and height [-3] with pixel size one: one edge along x, none
    along y. Both scales zero on a raster of two by one pixels: every edge
    is the origin. Neither call fails. *)
Lemma builder_accepts_zero_scale_and_extent :
  let unit_scale := mk_Affine F64.one F64.zero (F64.of_int 7)
                              F64.zero F64.minus_one (F64.of_int 9) in
  let zero_scale := mk_Affine F64.zero F64.zero (F64.of_int 7)
                              F64.zero F64.zero (F64.of_int 9) in
  is_rectilinear unit_scale = true /\
  pixel_coordinates 0 (-3) unit_scale = Ok ([F64.of_int 7], []) /\
  is_rectilinear zero_scale = true /\
  F64.eqb (a zero_scale) F64.zero = true /\
  F64.eqb (e zero_scale) F64.zero = true /\
  pixel_coordinates 2 1 zero_scale =
    Ok ([F64.of_int 7; F64.of_int 7; F64.of_int 7], [F64.of_int 9; F64.of_int 9]).
Proof.
  cbv zeta. repeat split; vm_compute; reflexivity.
Qed.

(** ** Negating the vertical scale *)

(** [-1.0 * x] is [-x]: the product of a binary64 number by [-1.0] is
    exact. *)
Lemma mul_minus_one (x : float) :
  F64.valid x = true -> F64.mul F64.minus_one x = F64.opp x.
Proof.
  destruct x as [s|s| |s m ex]; try reflexivity.
  intros Hv. unfold F64.valid, valid_binary, bounded in Hv.
  apply andb_true_iff in Hv as [Hc Hb].
  unfold canonical_mantissa in Hc. apply Z.eqb_eq in Hc.
  change F64.minus_one with (S754_finite true 4503599627370496 (-52)).
  unfold F64.mul, F64.opp, SFmul, SFopp, binary_round_aux, shr_fexp.
  change (xorb true s) with (negb s).
  cbn [Pos.mul Zdigits2 digits2_pos].
  set (d := digits2_pos m) in *.
  match goal with
  | |- context [fexp _ _ (?u + (-52 + ex))] =>
      replace (u + (-52 + ex)) with (Z.pos d + ex) by lia
  end.
  rewrite Hc. replace (ex - (-52 + ex)) with 52 by lia.
  cbn [shr shr_record_of_loc iter_pos shr_1 orb shr_m loc_of_shr_record
       round_nearest_even Zdigits2 digits2_pos].
  fold d. replace (-52 + ex + 52) with ex by lia.
  rewrite Hc, Z.sub_diag. cbn [shr shr_m]. rewrite Hb. reflexivity.
Qed.
(** ** The edges the builder returns *)

Lemma arange_length (n : Z) : Z.of_nat (length (arange n)) = Z.max 0 n.
Proof. unfold arange. rewrite length_map, length_seq. lia. Qed.

Lemma edge_map_arange (F : float -> float) (n : Z) (i : nat) :
  (Z.of_nat i < n) -> edge (map F (arange n)) i = F (F64.of_int (Z.of_nat i)).
Proof.
  intros Hi. unfold edge, arange.
  rewrite (nth_indep _ _ (F (F64.of_int (Z.of_nat 0)))).
  2: rewrite !length_map, length_seq; lia.
  rewrite map_map.
  change (F (F64.of_int (Z.of_nat 0)))
    with ((fun k => F (F64.of_int (Z.of_nat k))) 0%nat).
  rewrite map_nth, seq_nth by lia. reflexivity.
Qed.

(** C3: the builder's output. For positive width and height and a
    rectilinear transform, [pixel_coordinates] returns [width + 1] x-edges
    and [height + 1] y-edges; x-edge [i] is [i * scale_x + origin_x] and
    y-edge [i] is [i * (-scale_y) + origin_y], in binary64 arithmetic. *)
Theorem builder_edges (width height : Z) (t : Affine) :
  0 < width -> 0 < height -> is_rectilinear t = true -> F64.valid (e t) = true ->
  exists gx gy : list float,
    pixel_coordinates width height t = Ok (gx, gy) /\
    Z.of_nat (length gx) = width + 1 /\
    Z.of_nat (length gy) = height + 1 /\
    (forall i : nat, Z.of_nat i <= width ->
       edge gx i = F64.add (F64.mul (F64.of_int (Z.of_nat i)) (a t)) (c t)) /\
    (forall i : nat, Z.of_nat i <= height ->
       edge gy i =
       F64.add (F64.mul (F64.of_int (Z.of_nat i)) (F64.opp (e t))) (f t)).
Proof.
  intros Hw Hh Hr Hv. unfold pixel_coordinates. rewrite Hr. cbn [assert bind].
  eexists. eexists. split; [reflexivity|].
  rewrite !length_map, !arange_length.
  split; [lia|]. split; [lia|]. split.
  - intros i Hi. rewrite edge_map_arange by lia. reflexivity.
  - intros i Hi. rewrite edge_map_arange by lia.
    cbn [Affine_item nth]. rewrite mul_minus_one by assumption. reflexivity.
Qed.

(** The raster of the specification's scenario: three by two pixels of
    size one, at the origin. *)
Lemma builder_edges_witness :
  let t := mk_Affine F64.one F64.zero F64.zero F64.zero F64.one F64.zero in
  0 < 3 /\ 0 < 2 /\ is_rectilinear t = true /\ F64.valid (e t) = true /\
  exists gx gy : list float,
    pixel_coordinates 3 2 t = Ok (gx, gy) /\
    Z.of_nat (length gx) = 3 + 1 /\
    Z.of_nat (length gy) = 2 + 1 /\
    (forall i : nat, Z.of_nat i <= 3 ->
       edge gx i = F64.add (F64.mul (F64.of_int (Z.of_nat i)) (a t)) (c t)) /\
    (forall i : nat, Z.of_nat i <= 2 ->
       edge gy i =
       F64.add (F64.mul (F64.of_int (Z.of_nat i)) (F64.opp (e t))) (f t)).
Proof.
  cbv zeta. split; [lia|]. split; [lia|]. split; [reflexivity|]. split; [reflexivity|].
  apply (builder_edges 3 2
           (mk_Affine F64.one F64.zero F64.zero F64.zero F64.one F64.zero)).
  - lia.
  - lia.
  - reflexivity.
  - reflexivity.
Defined.
(** ** The order of binary64 numbers against their values *)

Module F64Value.

Lemma digits2_pos_upper (m : positive) : Zpos m < 2 ^ Zpos (digits2_pos m).
Proof.
  induction m as [m IH|m IH|]; cbn [digits2_pos].
  - rewrite Pos2Z.inj_succ, Z.pow_succ_r by lia. lia.
  - rewrite Pos2Z.inj_succ, Z.pow_succ_r by lia. lia.
  - reflexivity.
Qed.

Lemma digits2_pos_lower (m : positive) : 2 ^ (Zpos (digits2_pos m) - 1) <= Zpos m.
Proof.
  induction m as [m IH|m IH|]; cbn [digits2_pos].
  - rewrite Pos2Z.inj_succ.
    replace (Z.succ (Zpos (digits2_pos m)) - 1) with (Z.succ (Zpos (digits2_pos m) - 1)) by lia.
    rewrite Z.pow_succ_r by lia. lia.
  - rewrite Pos2Z.inj_succ.
    replace (Z.succ (Zpos (digits2_pos m)) - 1) with (Z.succ (Zpos (digits2_pos m) - 1)) by lia.
    rewrite Z.pow_succ_r by lia. lia.
  - simpl. lia.
Qed.

(** A canonical mantissa has at most 53 digits, and exactly 53 above the
    smallest exponent. *)
Lemma valid_finite (s : bool) (m : positive) (ex : Z) :
  F64.valid (S754_finite s m ex) = true ->
  F64.emin <= ex /\ Zpos m < 2 ^ 53 /\ (F64.emin < ex -> 2 ^ 52 <= Zpos m).
Proof.
  unfold F64.valid, valid_binary, bounded, canonical_mantissa, fexp.
  intros H. apply andb_true_iff in H as [H _]. apply Z.eqb_eq in H.
  unfold SpecFloat.emin, F64.emin, F64.prec, F64.emax in *.
  pose proof (digits2_pos_upper m) as Hu. pose proof (digits2_pos_lower m) as Hl.
  split; [lia|]. split.
  - eapply Z.lt_le_trans; [exact Hu|]. apply Z.pow_le_mono_r; lia.
  - intros He. replace (Zpos (digits2_pos m)) with 53 in Hl by lia. exact Hl.
Qed.

(** Between canonical numbers, the smaller exponent gives the smaller
    magnitude. *)
Lemma magnitude_exponent (s1 s2 : bool) (m1 m2 : positive) (e1 e2 : Z) :
  F64.valid (S754_finite s1 m1 e1) = true ->
  F64.valid (S754_finite s2 m2 e2) = true ->
  e1 < e2 ->
  Zpos m1 * 2 ^ (e1 - F64.emin) < Zpos m2 * 2 ^ (e2 - F64.emin).
Proof.
  intros H1 H2 He.
  destruct (valid_finite _ _ _ H1) as (Hm1 & Hu1 & _).
  destruct (valid_finite _ _ _ H2) as (Hm2 & _ & Hl2).
  specialize (Hl2 ltac:(lia)).
  replace (e2 - F64.emin) with ((e2 - e1 - 1) + 1 + (e1 - F64.emin)) by lia.
  rewrite !Z.pow_add_r by lia.
  assert (Hp : 0 < 2 ^ (e1 - F64.emin)) by (apply Z.pow_pos_nonneg; lia).
  assert (Hq : 0 < 2 ^ (e2 - e1 - 1)) by (apply Z.pow_pos_nonneg; lia).
  change (2 ^ 1) with 2. change (2 ^ 53) with (2 * 2 ^ 52) in Hu1.
  set (P := 2 ^ 52) in *. set (A := 2 ^ (e1 - F64.emin)) in *.
  set (B := 2 ^ (e2 - e1 - 1)) in *.
  apply Z.lt_le_trans with (2 * P * A).
  - apply Z.mul_lt_mono_pos_r; assumption.
  - rewrite Z.mul_assoc. apply Z.mul_le_mono_nonneg_r; [lia|].
    transitivity (P * (B * 2)); [|apply Z.mul_le_mono_nonneg_r; lia].
    assert (0 < P) by (unfold P; reflexivity). nia.
Qed.

Lemma units_positive (m : positive) (ex : Z) :
  F64.emin <= ex -> 0 < Zpos m * 2 ^ (ex - F64.emin).
Proof.
  intros H. apply Z.mul_pos_pos; [lia|]. apply Z.pow_pos_nonneg; lia.
Qed.

Ltac number x H :=
  let Hf := fresh "Hf" in let Hv := fresh "Hv" in
  unfold F64.is_number in H; apply andb_true_iff in H as [Hf Hv];
  destruct x as [?s|?s| |?s ?m ?ex]; try discriminate Hf; clear Hf.

Lemma ltb_units (x y : float) :
  F64.is_number x = true -> F64.is_number y = true ->
  F64.ltb x y = true -> F64.units x < F64.units y.
Proof.
  intros Hx Hy. number x Hx; number y Hy;
    unfold F64.ltb, SFltb, SFcompare, F64.units, cond_Zopp;
    repeat match goal with
    | H : F64.valid (S754_finite _ ?m ?ex) = true |- _ =>
        lazymatch goal with
        | _ : 0 < Zpos m * 2 ^ (ex - F64.emin) |- _ => fail
        | _ => pose proof (units_positive m ex (proj1 (valid_finite _ _ _ H)))
        end
    end;
    try (destruct s; discriminate || lia);
    try (destruct s0; discriminate || lia).
  change (Pos.compare_cont Eq m m0) with (Pos.compare m m0).
  destruct s, s0; try discriminate; try lia.
  - destruct (Z.compare_spec ex ex0) as [->|He|He]; try discriminate.
    + destruct (Pos.compare_spec m m0) as [|Hm|Hm]; try discriminate.
      intros _. rewrite !Z.mul_opp_l. apply -> Z.opp_lt_mono.
      apply Z.mul_lt_mono_pos_r; [|lia].
      apply Z.pow_pos_nonneg; [lia|]. pose proof (valid_finite _ _ _ Hv). lia.
    + intros _. rewrite !Z.mul_opp_l. apply -> Z.opp_lt_mono.
      eapply magnitude_exponent; eassumption.
  - destruct (Z.compare_spec ex ex0) as [->|He|He]; try discriminate.
    + destruct (Pos.compare_spec m m0) as [|Hm|Hm]; try discriminate.
      intros _. apply Z.mul_lt_mono_pos_r; [|lia].
      apply Z.pow_pos_nonneg; [lia|]. pose proof (valid_finite _ _ _ Hv). lia.
    + intros _. eapply magnitude_exponent; eassumption.
Qed.

Lemma eqb_units (x y : float) :
  F64.is_number x = true -> F64.is_number y = true ->
  F64.eqb x y = true -> F64.units x = F64.units y.
Proof.
  intros Hx Hy. number x Hx; number y Hy;
    unfold F64.eqb, SFeqb, SFcompare, F64.units; try reflexivity;
    try (destruct s; discriminate); try (destruct s0; discriminate).
  change (Pos.compare_cont Eq m m0) with (Pos.compare m m0).
  destruct s, s0; try discriminate;
    destruct (Z.compare_spec ex ex0) as [->|He|He]; try discriminate;
    destruct (Pos.compare_spec m m0) as [->|Hm|Hm]; try discriminate; reflexivity.
Qed.

Lemma number_not_nan (x : float) : F64.is_number x = true -> F64.is_nan x = false.
Proof. intros H. number x H; reflexivity. Qed.

(** Numbers compare as their values do. *)
Lemma units_ltb (x y : float) :
  F64.is_number x = true -> F64.is_number y = true ->
  F64.units x < F64.units y -> F64.ltb x y = true.
Proof.
  intros Hx Hy H.
  destruct (F64Order.trichotomy x y (number_not_nan x Hx) (number_not_nan y Hy))
    as [G|[G|G]].
  - assumption.
  - apply eqb_units in G; auto. lia.
  - apply ltb_units in G; auto. lia.
Qed.

End F64Value.

(** ** Rounding *)

Lemma pow2_pos (n : Z) : 0 <= n -> 0 < 2 ^ n.
Proof. intros H. apply Z.pow_pos_nonneg; lia. Qed.

Lemma pow2_le (a b : Z) : 0 <= a -> a <= b -> 2 ^ a <= 2 ^ b.
Proof. intros Ha Hab. apply Z.pow_le_mono_r; lia. Qed.

Lemma pow2_add (a b : Z) : 0 <= a -> 0 <= b -> 2 ^ (a + b) = 2 ^ a * 2 ^ b.
Proof. intros Ha Hb. apply Z.pow_add_r; assumption. Qed.

Lemma nearest_even_bounds (m n : Z) :
  0 <= n -> m / 2 ^ n <= nearest_even m n <= m / 2 ^ n + 1.
Proof.
  intros Hn. unfold nearest_even.
  destruct (_ <? _); [lia|]. destruct (_ <? _); [lia|]. destruct (Z.even _); lia.
Qed.

Lemma nearest_even_mono (m1 m2 n : Z) :
  0 <= n -> m1 <= m2 -> nearest_even m1 n <= nearest_even m2 n.
Proof.
  intros Hn Hm. pose proof (pow2_pos n Hn) as HP.
  pose proof (nearest_even_bounds m1 n Hn) as B1.
  pose proof (nearest_even_bounds m2 n Hn) as B2.
  assert (Hq : m1 / 2 ^ n <= m2 / 2 ^ n) by (apply Z.div_le_mono; lia).
  destruct (Z.eq_dec (m1 / 2 ^ n) (m2 / 2 ^ n)) as [E|E]; [|lia].
  pose proof (Z.div_mod m1 (2 ^ n) ltac:(lia)) as D1.
  pose proof (Z.div_mod m2 (2 ^ n) ltac:(lia)) as D2.
  unfold nearest_even. rewrite E in *.
  set (q := m2 / 2 ^ n) in *. set (P := 2 ^ n) in *.
  set (r1 := m1 mod P) in *. set (r2 := m2 mod P) in *.
  assert (r1 <= r2) by lia.
  destruct (Z.ltb_spec (2 * r1) P), (Z.ltb_spec (2 * r2) P),
    (Z.ltb_spec P (2 * r1)), (Z.ltb_spec P (2 * r2)), (Z.even q); lia.
Qed.

Lemma nearest_even_exact (k n : Z) : 0 <= n -> nearest_even (k * 2 ^ n) n = k.
Proof.
  intros Hn. pose proof (pow2_pos n Hn) as HP. unfold nearest_even.
  rewrite Z.div_mul, Z.mod_mul by lia.
  destruct (Z.ltb_spec (2 * 0) (2 ^ n)); [reflexivity|lia].
Qed.

Lemma nearest_even_scale (m n k : Z) :
  0 <= n -> 0 <= k -> nearest_even (m * 2 ^ k) (n + k) = nearest_even m n.
Proof.
  intros Hn Hk. pose proof (pow2_pos n Hn) as HP. pose proof (pow2_pos k Hk) as HK.
  unfold nearest_even. rewrite pow2_add by assumption.
  rewrite Z.div_mul_cancel_r, Z.mul_mod_distr_r by lia.
  pose proof (Z.mod_pos_bound m (2 ^ n) HP) as B.
  set (r := m mod 2 ^ n) in *. set (P := 2 ^ n) in *. set (K := 2 ^ k) in *.
  destruct (Z.ltb_spec (2 * (r * K)) (P * K)), (Z.ltb_spec (2 * r) P); try nia;
    destruct (Z.ltb_spec (P * K) (2 * (r * K))), (Z.ltb_spec P (2 * r)); try nia;
    reflexivity.
Qed.

Lemma nearest_even_le (m n k : Z) :
  0 <= n -> m <= k * 2 ^ n -> nearest_even m n <= k.
Proof.
  intros Hn H. rewrite <- (nearest_even_exact k n Hn). now apply nearest_even_mono.
Qed.

Lemma nearest_even_ge (m n k : Z) :
  0 <= n -> k * 2 ^ n <= m -> k <= nearest_even m n.
Proof.
  intros Hn H. rewrite <- (nearest_even_exact k n Hn). now apply nearest_even_mono.
Qed.

Lemma overflow_pos : 0 < overflow.
Proof. reflexivity. Qed.

Lemma round_units_bounds (u v : Z) :
  u <= F64.emin -> 0 <= v -> 0 <= round_units u v <= overflow.
Proof.
  intros Hu Hv. unfold round_units. cbv zeta.
  set (E := Z.max _ _).
  assert (HE : F64.emin <= E) by (unfold E; lia).
  assert (0 <= nearest_even v (E - u)).
  { apply (nearest_even_ge v (E - u) 0); lia. }
  pose proof (pow2_pos (E - F64.emin) ltac:(lia)).
  pose proof overflow_pos. split; [|lia].
  apply Z.min_glb; [nia|lia].
Qed.

Lemma round_units_mono (u v1 v2 : Z) :
  u <= F64.emin -> 1 <= v1 -> v1 <= v2 -> round_units u v1 <= round_units u v2.
Proof.
  intros Hu H1 H12. unfold round_units. cbv zeta.
  pose proof (Z.log2_le_mono v1 v2 H12) as HD.
  pose proof (Z.log2_spec v1 ltac:(lia)) as S1.
  pose proof (Z.log2_spec v2 ltac:(lia)) as S2.
  pose proof (Z.log2_nonneg v1) as N1.
  set (D1 := Z.log2 v1) in *. set (D2 := Z.log2 v2) in *.
  set (E1 := Z.max (D1 + 1 + u - F64.prec) F64.emin).
  set (E2 := Z.max (D2 + 1 + u - F64.prec) F64.emin).
  assert (HE1 : F64.emin <= E1) by (unfold E1; lia).
  assert (HE : E1 <= E2) by (unfold E1, E2; lia).
  apply Z.min_le_compat_r.
  destruct (Z.eq_dec E1 E2) as [<-|Hne].
  - apply Z.mul_le_mono_nonneg_r; [pose proof (pow2_pos (E1 - F64.emin)); lia|].
    apply nearest_even_mono; lia.
  - assert (HE2 : E2 = D2 + 1 + u - F64.prec) by (unfold E2 in *; lia).
    assert (HD12 : D1 + 1 <= D2) by (unfold E1, E2 in *; lia).
    assert (Hprec : F64.prec = 53) by reflexivity.
    (* the power of two between the two values *)
    transitivity (2 ^ (F64.prec - 1 + (E2 - F64.emin))).
    + replace (F64.prec - 1 + (E2 - F64.emin))
        with ((F64.prec - 1 + (E2 - E1)) + (E1 - F64.emin)) by lia.
      rewrite pow2_add by lia.
      apply Z.mul_le_mono_nonneg_r; [pose proof (pow2_pos (E1 - F64.emin)); lia|].
      apply nearest_even_le; [lia|].
      rewrite <- pow2_add by lia.
      replace (F64.prec - 1 + (E2 - E1) + (E1 - u)) with D2 by lia.
      transitivity (2 ^ (D1 + 1)); [lia|]. apply pow2_le; lia.
    + rewrite pow2_add by lia.
      apply Z.mul_le_mono_nonneg_r; [pose proof (pow2_pos (E2 - F64.emin)); lia|].
      apply nearest_even_ge; [lia|].
      rewrite <- pow2_add by lia.
      replace (F64.prec - 1 + (E2 - u)) with D2 by lia. lia.
Qed.

Lemma round_signed_mono (u v1 v2 : Z) :
  u <= F64.emin -> v1 <= v2 -> round_signed u v1 <= round_signed u v2.
Proof.
  intros Hu H.
  destruct v1 as [|p1|p1], v2 as [|p2|p2]; cbn [round_signed]; try lia.
  - apply round_units_bounds; lia.
  - now apply round_units_mono; try lia.
  - pose proof (round_units_bounds u (- Z.neg p1) Hu ltac:(lia)). lia.
  - pose proof (round_units_bounds u (- Z.neg p1) Hu ltac:(lia)).
    pose proof (round_units_bounds u (Z.pos p2) Hu ltac:(lia)). lia.
  - apply -> Z.opp_le_mono. apply round_units_mono; lia.
Qed.

Lemma round_signed_bounds (u v : Z) :
  u <= F64.emin -> - overflow <= round_signed u v <= overflow.
Proof.
  intros Hu. pose proof overflow_pos.
  destruct v as [|p|p]; cbn [round_signed]; [lia| |].
  - pose proof (round_units_bounds u (Z.pos p) Hu ltac:(lia)). lia.
  - pose proof (round_units_bounds u (- Z.neg p) Hu ltac:(lia)). lia.
Qed.

(** *** The shift of a mantissa *)

Lemma iter_pos_iter {A : Type} (f : A -> A) (p : positive) (x : A) :
  iter_pos f p x = Pos.iter f x p.
Proof.
  revert x. induction p as [p IH|p IH|]; intros x; cbn [iter_pos Pos.iter].
  - now rewrite !IH, !Pos.iter_swap.
  - now rewrite !IH.
  - reflexivity.
Qed.

Lemma shr_1_nonneg (q : Z) (r s : bool) :
  0 <= q ->
  shr_1 (Build_shr_record q r s) = Build_shr_record (q / 2) (Z.odd q) (r || s).
Proof.
  intros Hq. rewrite <- Z.div2_div.
  destruct q as [|[p|p|]|]; try reflexivity. lia.
Qed.

Section Shift.

Variable m : Z.
Hypothesis m_nonneg : 0 <= m.

(** After [n] shifts: the quotient by [2^n], and where the remainder lies
    against the half of [2^n]. *)
Local Abbreviation located n st :=
  (shr_m st = m / 2 ^ n /\
   match shr_r st, shr_s st with
   | false, false => m mod 2 ^ n = 0
   | false, true => 0 < 2 * (m mod 2 ^ n) < 2 ^ n
   | true, false => 2 * (m mod 2 ^ n) = 2 ^ n
   | true, true => 2 ^ n < 2 * (m mod 2 ^ n)
   end).

Lemma located_start : located 0 (Build_shr_record m false false).
Proof.
  cbn [shr_m shr_r shr_s]. rewrite Z.pow_0_r, Z.div_1_r, Z.mod_1_r. auto.
Qed.

Lemma located_step (n : Z) (st : shr_record) :
  0 <= n -> located n st -> located (n + 1) (shr_1 st).
Proof.
  intros Hn [Hq Hloc]. destruct st as [q r s]. cbn [shr_m shr_r shr_s] in *.
  pose proof (pow2_pos n Hn) as HP.
  assert (Hq0 : 0 <= q) by (subst q; apply Z.div_pos; lia).
  rewrite shr_1_nonneg by assumption. cbn [shr_m shr_r shr_s].
  rewrite pow2_add by lia. change (2 ^ 1) with 2.
  rewrite <- Z.div_div, <- Hq by lia.
  rewrite Z.rem_mul_r, <- Hq, Zmod_odd by lia.
  pose proof (Z.mod_pos_bound m (2 ^ n) HP) as B.
  split; [reflexivity|].
  destruct r, s, (Z.odd q); cbn [orb]; lia.
Qed.

Lemma shr_located (e n : Z) :
  0 <= n ->
  exists st, shr (Build_shr_record m false false) e n = (st, e + n) /\ located n st.
Proof.
  intros Hn. destruct n as [|p|p]; [| |lia].
  - eexists. split; [cbn [shr]; now rewrite Z.add_0_r|]. apply located_start.
  - eexists. split; [reflexivity|]. rewrite iter_pos_iter.
    apply (Pos.iter_ind shr_record shr_1 _ (fun p st => located (Z.pos p) st)).
    + apply (located_step 0); [lia|apply located_start].
    + intros q st H. rewrite Pos2Z.inj_succ. apply (located_step (Z.pos q)); [lia|exact H].
Qed.

Lemma located_round (n : Z) (st : shr_record) :
  0 <= n -> located n st ->
  round_nearest_even (shr_m st) (loc_of_shr_record st) = nearest_even m n.
Proof.
  intros Hn [Hq Hloc]. destruct st as [q r s]. cbn [shr_m shr_r shr_s] in *.
  pose proof (pow2_pos n Hn) as HP.
  unfold nearest_even. rewrite <- Hq.
  set (rem := m mod 2 ^ n) in *. set (P := 2 ^ n) in *.
  destruct r, s; cbn [loc_of_shr_record round_nearest_even];
    destruct (Z.ltb_spec (2 * rem) P), (Z.ltb_spec P (2 * rem)); try lia; reflexivity.
Qed.

End Shift.

Lemma shr_nonpos (mrs : shr_record) (e n : Z) : n <= 0 -> shr mrs e n = (mrs, e).
Proof. intros H. destruct n; [reflexivity|lia|reflexivity]. Qed.

(** *** The digits of a mantissa *)

Lemma digits_log2 (m : positive) : Z.pos (digits2_pos m) = Z.log2 (Z.pos m) + 1.
Proof.
  pose proof (F64Value.digits2_pos_upper m) as U.
  pose proof (F64Value.digits2_pos_lower m) as L.
  assert (Z.log2 (Z.pos m) = Z.pos (digits2_pos m) - 1); [|lia].
  apply Z.log2_unique; [lia|].
  replace (Z.succ (Z.pos (digits2_pos m) - 1)) with (Z.pos (digits2_pos m)) by lia.
  lia.
Qed.

Lemma log2_scale (v k : Z) : 1 <= v -> 0 <= k -> Z.log2 (v * 2 ^ k) = Z.log2 v + k.
Proof.
  intros Hv Hk. pose proof (Z.log2_spec v ltac:(lia)) as S.
  pose proof (Z.log2_nonneg v) as N. pose proof (pow2_pos k Hk) as HK.
  apply Z.log2_unique; [lia|].
  replace (Z.succ (Z.log2 v + k)) with (Z.succ (Z.log2 v) + k) by lia.
  rewrite !pow2_add by lia. nia.
Qed.

Lemma fexp_unfold (x : Z) : fexp F64.prec F64.emax x = Z.max (x - F64.prec) F64.emin.
Proof. reflexivity. Qed.

(** *** What [binary_round_aux] returns *)

Lemma cond_Zopp_mul (s : bool) (x y : Z) : cond_Zopp s x * y = cond_Zopp s (x * y).
Proof. destruct s; cbn [cond_Zopp]; lia. Qed.

Lemma is_value_finite (s : bool) (m : positive) (e : Z) :
  Z.max (Z.pos (digits2_pos m) + e - F64.prec) F64.emin = e ->
  e <= F64.emax - F64.prec ->
  is_value (S754_finite s m e) = true.
Proof.
  intros Hc Hb. unfold is_value, F64.valid, valid_binary, bounded, canonical_mantissa.
  rewrite fexp_unfold, Hc, Z.eqb_refl. cbn [andb F64.is_nan negb].
  rewrite andb_true_r. now apply Z.leb_le.
Qed.

(** The rounding of a mantissa [m] at exponent [e], when [e] is not above
    the exponent the result is to have: the value [m * 2^e], counted in
    units of any [2^u] that divides it, is rounded as [round_units] says. *)
Lemma binary_round_aux_spec (sx : bool) (m : positive) (e u : Z) :
  e <= fexp F64.prec F64.emax (Z.pos (digits2_pos m) + e) ->
  u <= e -> u <= F64.emin ->
  is_value (binary_round_aux F64.prec F64.emax sx (Z.pos m) e loc_Exact) = true /\
  rank (binary_round_aux F64.prec F64.emax sx (Z.pos m) e loc_Exact) =
    cond_Zopp sx (round_units u (Z.pos m * 2 ^ (e - u))).
Proof.
  rewrite fexp_unfold. intros He Hue Hu.
  assert (Hprec : F64.prec = 53) by reflexivity.
  assert (Hemax : F64.emax = 1024) by reflexivity.
  assert (Hemin : F64.emin = -1074) by reflexivity.
  pose proof (F64Value.digits2_pos_upper m) as U.
  pose proof (F64Value.digits2_pos_lower m) as L.
  set (d := Z.pos (digits2_pos m)) in *.
  set (E := Z.max (d + e - F64.prec) F64.emin) in *.
  assert (HE : F64.emin <= E) by (unfold E; lia).
  (* the value that is rounded *)
  assert (Hround : round_units u (Z.pos m * 2 ^ (e - u)) =
                   Z.min (nearest_even (Z.pos m) (E - e) * 2 ^ (E - F64.emin)) overflow).
  { unfold round_units. cbv zeta.
    rewrite log2_scale by lia.
    replace (Z.log2 (Z.pos m)) with (d - 1) by (unfold d; rewrite digits_log2; lia).
    replace (d - 1 + (e - u) + 1 + u - F64.prec) with (d + e - F64.prec) by lia.
    fold E. replace (E - u) with ((E - e) + (e - u)) by lia.
    rewrite nearest_even_scale by lia. reflexivity. }
  rewrite Hround. clear Hround.
  (* the first shift and the rounding *)
  unfold binary_round_aux, shr_fexp. cbn [Zdigits2 shr_record_of_loc].
  rewrite fexp_unfold. fold d. fold E.
  destruct (shr_located (Z.pos m) ltac:(lia) e (E - e) ltac:(lia)) as (st & Hshr & Hloc).
  rewrite Hshr. replace (e + (E - e)) with E by lia.
  rewrite (located_round (Z.pos m) (E - e) st ltac:(lia) Hloc).
  set (q := nearest_even (Z.pos m) (E - e)).
  pose proof (pow2_pos (E - e) ltac:(lia)) as HP.
  pose proof (pow2_pos (E - F64.emin) ltac:(lia)) as HQ.
  assert (Hq0 : 0 <= q) by (apply (nearest_even_ge _ _ 0); lia).
  assert (Hq1 : q <= 2 ^ F64.prec).
  { apply nearest_even_le; [lia|]. rewrite <- pow2_add by lia.
    transitivity (2 ^ d); [lia|]. apply pow2_le; lia. }
  assert (Hq2 : F64.emin < E -> 2 ^ (F64.prec - 1) <= q).
  { intros HlE. apply nearest_even_ge; [lia|]. rewrite <- pow2_add by lia.
    replace (F64.prec - 1 + (E - e)) with (d - 1) by lia. lia. }
  assert (Hover : overflow = 2 ^ (F64.prec - 1) * 2 ^ (F64.emax - F64.prec + 1 - F64.emin)).
  { reflexivity. }
  destruct (Z.eq_dec q (2 ^ F64.prec)) as [Hq|Hq].
  - (* the rounding has carried into a 54th digit *)
    rewrite Hq. change (2 ^ F64.prec) with 9007199254740992.
    change (Zdigits2 9007199254740992) with 54.
    rewrite fexp_unfold.
    replace (Z.max (54 + E - F64.prec) F64.emin - E) with 1 by lia.
    cbn [shr iter_pos shr_1 shr_record_of_loc orb shr_m].
    destruct (Z.leb_spec (E + 1) (F64.emax - F64.prec)) as [Hb|Hb].
    + split.
      * apply is_value_finite; [|assumption].
        change (Z.pos (digits2_pos 4503599627370496)) with 53. lia.
      * cbn [rank F64.units]. rewrite cond_Zopp_mul. f_equal.
        replace (E + 1 - F64.emin) with (1 + (E - F64.emin)) by lia.
        rewrite pow2_add by lia. change (2 ^ 1) with 2.
        rewrite Z.min_l; [lia|].
        rewrite Hover.
        replace (F64.emax - F64.prec + 1 - F64.emin)
          with ((F64.emax - F64.prec - E) + (1 + (E - F64.emin))) by lia.
        rewrite (pow2_add (F64.emax - F64.prec - E)) by lia.
        rewrite (pow2_add 1) by lia. change (2 ^ 1) with 2.
        pose proof (pow2_pos (F64.emax - F64.prec - E) ltac:(lia)).
        change (2 ^ (F64.prec - 1)) with 4503599627370496. nia.
    + split; [reflexivity|].
      cbn [rank]. f_equal. rewrite Z.min_r; [reflexivity|].
      rewrite Hover.
      replace (E - F64.emin)
        with ((E - (F64.emax - F64.prec)) + (F64.emax - F64.prec - F64.emin)) by lia.
      rewrite pow2_add by lia.
      replace (F64.emax - F64.prec + 1 - F64.emin)
        with (1 + (F64.emax - F64.prec - F64.emin)) by lia.
      rewrite (pow2_add 1) by lia. change (2 ^ 1) with 2.
      pose proof (pow2_pos (E - (F64.emax - F64.prec)) ltac:(lia)).
      pose proof (pow2_pos (F64.emax - F64.prec - F64.emin) ltac:(lia)).
      change (2 ^ (F64.prec - 1)) with 4503599627370496. nia.
  - destruct q as [|p|p] eqn:Eq; [| |lia].
    + (* the value is rounded to zero *)
      cbn [Zdigits2]. rewrite shr_nonpos by (rewrite fexp_unfold; lia).
      cbn [shr_record_of_loc shr_m]. split; [reflexivity|].
      cbn [rank F64.units]. rewrite Z.mul_0_l, Z.min_l by (pose proof overflow_pos; lia).
      now destruct sx.
    + pose proof (F64Value.digits2_pos_upper p) as U'.
      pose proof (F64Value.digits2_pos_lower p) as L'.
      cbn [Zdigits2]. set (d' := Z.pos (digits2_pos p)) in *.
      assert (Hd' : d' <= F64.prec).
      { destruct (Z.le_gt_cases d' F64.prec) as [|Hgt]; [assumption|exfalso].
        assert (2 ^ F64.prec <= 2 ^ (d' - 1)) by (apply pow2_le; lia). lia. }
      assert (Hd'' : F64.emin < E -> d' = F64.prec).
      { intros HlE. specialize (Hq2 HlE).
        destruct (Z.le_gt_cases F64.prec d') as [|Hgt]; [lia|exfalso].
        assert (2 ^ d' <= 2 ^ (F64.prec - 1)) by (apply pow2_le; lia). lia. }
      rewrite shr_nonpos by (rewrite fexp_unfold; lia).
      cbn [shr_record_of_loc shr_m].
      destruct (Z.leb_spec E (F64.emax - F64.prec)) as [Hb|Hb].
      * split.
        -- apply is_value_finite; [|assumption]. fold d'.
           destruct (Z.eq_dec E F64.emin); [lia|]. rewrite Hd'' by lia. lia.
        -- cbn [rank F64.units]. rewrite cond_Zopp_mul. f_equal.
           rewrite Z.min_l; [reflexivity|].
           rewrite Hover.
           replace (F64.emax - F64.prec + 1 - F64.emin)
             with ((F64.emax - F64.prec - E) + (1 + (E - F64.emin))) by lia.
           rewrite (pow2_add (F64.emax - F64.prec - E)) by lia.
           rewrite (pow2_add 1) by lia. change (2 ^ 1) with 2.
           pose proof (pow2_pos (F64.emax - F64.prec - E) ltac:(lia)).
           change (2 ^ F64.prec) with 9007199254740992 in *.
           change (2 ^ (F64.prec - 1)) with 4503599627370496. nia.
      * split; [reflexivity|].
        cbn [rank]. f_equal. rewrite Z.min_r; [reflexivity|].
        specialize (Hq2 ltac:(lia)).
        rewrite Hover.
        replace (E - F64.emin)
          with ((E - (F64.emax - F64.prec + 1)) + (F64.emax - F64.prec + 1 - F64.emin))
          by lia.
        rewrite pow2_add by lia.
        pose proof (pow2_pos (E - (F64.emax - F64.prec + 1)) ltac:(lia)).
        pose proof (pow2_pos (F64.emax - F64.prec + 1 - F64.emin) ltac:(lia)).
        transitivity (Z.pos p * 2 ^ (F64.emax - F64.prec + 1 - F64.emin)).
        -- apply Z.mul_le_mono_nonneg_r; lia.
        -- rewrite Z.mul_assoc. apply Z.mul_le_mono_nonneg_r; [lia|nia].
Qed.

(** *** What [binary_round] and [binary_normalize] return *)

Lemma iter_xO (m p : positive) : Z.pos (Pos.iter xO m p) = Z.pos m * 2 ^ Z.pos p.
Proof.
  apply (Pos.iter_ind positive xO m (fun p r => Z.pos r = Z.pos m * 2 ^ Z.pos p)).
  - change (2 ^ 1) with 2. lia.
  - intros q r H. rewrite Pos2Z.inj_succ, Z.pow_succ_r by lia.
    rewrite Pos2Z.inj_xO, H. lia.
Qed.

Lemma shl_align_value (m : positive) (e e' : Z) :
  e' <= e ->
  Z.pos (fst (shl_align m e e')) = Z.pos m * 2 ^ (e - e') /\
  snd (shl_align m e e') = e'.
Proof.
  intros H. unfold shl_align. destruct (e' - e) as [|p|p] eqn:D; try lia.
  - cbn [fst snd]. replace (e - e') with 0 by lia. rewrite Z.pow_0_r. lia.
  - cbn [fst snd]. rewrite iter_xO. replace (e - e') with (Z.pos p) by lia. auto.
Qed.

Lemma digits_scale (m m' : positive) (k : Z) :
  0 <= k -> Z.pos m' = Z.pos m * 2 ^ k ->
  Z.pos (digits2_pos m') = Z.pos (digits2_pos m) + k.
Proof.
  intros Hk H. rewrite !digits_log2, H, log2_scale by lia. lia.
Qed.

Lemma binary_round_spec (sx : bool) (m : positive) (e u : Z) :
  u <= e -> u <= F64.emin ->
  is_value (binary_round F64.prec F64.emax sx m e) = true /\
  rank (binary_round F64.prec F64.emax sx m e) =
    cond_Zopp sx (round_units u (Z.pos m * 2 ^ (e - u))).
Proof.
  intros Hue Hu. unfold binary_round.
  set (E := fexp F64.prec F64.emax (Z.pos (digits2_pos m) + e)).
  assert (HE : F64.emin <= E) by (unfold E; rewrite fexp_unfold; lia).
  destruct (Z.le_gt_cases e E) as [Hle|Hgt].
  - assert (A : shl_align m e E = (m, e)).
    { unfold shl_align. destruct (E - e) eqn:D; try reflexivity. lia. }
    rewrite A. now apply binary_round_aux_spec.
  - destruct (shl_align_value m e E ltac:(lia)) as [V S].
    destruct (shl_align m e E) as [mz ez]. cbn [fst snd] in V, S. subst ez.
    pose proof (digits_scale m mz (e - E) ltac:(lia) V) as Dg.
    destruct (binary_round_aux_spec sx mz E u) as [H1 H2]; try lia.
    + rewrite Dg. replace (Z.pos (digits2_pos m) + (e - E) + E)
        with (Z.pos (digits2_pos m) + e) by lia. fold E. lia.
    + split; [exact H1|]. rewrite H2, V, <- Z.mul_assoc, <- pow2_add by lia.
      now replace (e - E + (E - u)) with (e - u) by lia.
Qed.

Lemma round_signed_pos (u v : Z) : 0 < v -> round_signed u v = round_units u v.
Proof. destruct v; try lia. reflexivity. Qed.

Lemma round_signed_neg (u v : Z) : v < 0 -> round_signed u v = - round_units u (- v).
Proof. destruct v; try lia. reflexivity. Qed.

Lemma binary_normalize_spec (M e u : Z) (szero : bool) :
  u <= e -> u <= F64.emin ->
  is_value (binary_normalize F64.prec F64.emax M e szero) = true /\
  rank (binary_normalize F64.prec F64.emax M e szero) =
    round_signed u (M * 2 ^ (e - u)).
Proof.
  intros Hue Hu. pose proof (pow2_pos (e - u) ltac:(lia)) as HP.
  destruct M as [|m|m]; cbn [binary_normalize].
  - split; reflexivity.
  - destruct (binary_round_spec false m e u Hue Hu) as [H1 H2].
    split; [exact H1|]. rewrite H2, round_signed_pos by lia. reflexivity.
  - destruct (binary_round_spec true m e u Hue Hu) as [H1 H2].
    split; [exact H1|]. rewrite H2, round_signed_neg by lia.
    cbn [cond_Zopp]. do 2 f_equal. lia.
Qed.

(** *** The order of the values *)

Lemma number_value (x : float) : F64.is_number x = true -> is_value x = true.
Proof.
  unfold F64.is_number, is_value. intros H. apply andb_true_iff in H as [Hf Hv].
  rewrite Hv. now destruct x.
Qed.

Lemma number_bound (x : float) :
  F64.is_number x = true -> - overflow < F64.units x < overflow.
Proof.
  intros H. unfold F64.is_number in H. apply andb_true_iff in H as [Hf Hv].
  pose proof overflow_pos.
  destruct x as [s|s| |s m e]; try discriminate Hf; cbn [F64.units]; try lia.
  destruct (F64Value.valid_finite s m e Hv) as (He & Hm & _).
  unfold F64.valid, valid_binary, bounded in Hv.
  apply andb_true_iff in Hv as [_ Hb]. apply Z.leb_le in Hb.
  assert (Hemin : F64.emin = -1074) by reflexivity.
  assert (Hprec : F64.prec = 53) by reflexivity.
  assert (Hemax : F64.emax = 1024) by reflexivity.
  assert (B : Z.pos m * 2 ^ (e - F64.emin) < overflow).
  { change overflow with (2 ^ 53 * 2 ^ (F64.emax - F64.prec - F64.emin)).
    assert (2 ^ (e - F64.emin) <= 2 ^ (F64.emax - F64.prec - F64.emin))
      by (apply pow2_le; lia).
    pose proof (pow2_pos (e - F64.emin) ltac:(lia)).
    apply Z.le_lt_trans with (Z.pos m * 2 ^ (F64.emax - F64.prec - F64.emin)).
    - apply Z.mul_le_mono_nonneg_l; lia.
    - apply Z.mul_lt_mono_pos_r; [|assumption]. apply pow2_pos. lia. }
  rewrite cond_Zopp_mul. destruct s; cbn [cond_Zopp];
    pose proof (pow2_pos (e - F64.emin) ltac:(lia)); nia.
Qed.

Lemma value_cases (x : float) :
  is_value x = true ->
  (F64.is_number x = true /\ rank x = F64.units x) \/
  (exists s, x = S754_infinity s).
Proof.
  unfold is_value, F64.is_number. intros H. apply andb_true_iff in H as [Hv Hn].
  destruct x as [s|s| |s m e]; try discriminate Hn.
  - left. split; reflexivity.
  - right. now exists s.
  - left. split; [exact Hv|reflexivity].
Qed.

Lemma ltb_rank (x y : float) :
  is_value x = true -> is_value y = true ->
  F64.ltb x y = true -> rank x < rank y.
Proof.
  intros Hx Hy H. pose proof overflow_pos.
  destruct (value_cases x Hx) as [[Nx Rx]|[sx ->]],
           (value_cases y Hy) as [[Ny Ry]|[sy ->]].
  - rewrite Rx, Ry. now apply F64Value.ltb_units.
  - rewrite Rx. pose proof (number_bound x Nx).
    destruct x as [s|s| |s m e], sy; try discriminate; cbn [rank cond_Zopp]; try lia;
      destruct s; discriminate.
  - rewrite Ry. pose proof (number_bound y Ny).
    destruct y as [s|s| |s m e], sx; try discriminate; cbn [rank cond_Zopp]; try lia;
      destruct s; discriminate.
  - destruct sx, sy; try discriminate; cbn [rank cond_Zopp]; lia.
Qed.

Lemma eqb_rank (x y : float) :
  is_value x = true -> is_value y = true ->
  F64.eqb x y = true -> rank x = rank y.
Proof.
  intros Hx Hy H.
  destruct (value_cases x Hx) as [[Nx Rx]|[sx ->]],
           (value_cases y Hy) as [[Ny Ry]|[sy ->]].
  - rewrite Rx, Ry. now apply F64Value.eqb_units.
  - destruct x as [s|s| |s m e], sy; try discriminate; destruct s; discriminate.
  - destruct y as [s|s| |s m e], sx; try discriminate; destruct s; discriminate.
  - destruct sx, sy; try discriminate; reflexivity.
Qed.

Lemma value_not_nan (x : float) : is_value x = true -> F64.is_nan x = false.
Proof.
  unfold is_value. intros H. apply andb_true_iff in H as [_ H].
  now apply negb_true_iff in H.
Qed.

(** Values compare as their ranks do. *)
Lemma rank_leb (x y : float) :
  is_value x = true -> is_value y = true ->
  (F64.leb x y = true <-> rank x <= rank y).
Proof.
  intros Hx Hy. rewrite F64Order.leb_spec, orb_true_iff.
  destruct (F64Order.trichotomy x y (value_not_nan x Hx) (value_not_nan y Hy))
    as [G|[G|G]].
  - pose proof (ltb_rank x y Hx Hy G). split; [lia|auto].
  - pose proof (eqb_rank x y Hx Hy G). split; [lia|auto].
  - pose proof (ltb_rank y x Hy Hx G). split; [|lia].
    intros [K|K].
    + rewrite (F64Order.ltb_asym _ _ G) in K. discriminate.
    + rewrite (F64Order.gtb_not_eqb _ _ G) in K. discriminate.
Qed.

(** *** Numbers are their own rounding *)

Lemma round_units_zero (u : Z) : u <= F64.emin -> round_units u 0 = 0.
Proof.
  intros Hu. unfold round_units. cbv zeta. set (E := Z.max _ _).
  assert (F64.emin <= E) by (unfold E; lia).
  rewrite (nearest_even_exact 0 (E - u) ltac:(lia) : nearest_even 0 (E - u) = 0).
  rewrite Z.mul_0_l. apply Z.min_l. pose proof overflow_pos. lia.
Qed.

Lemma round_units_mono0 (u v1 v2 : Z) :
  u <= F64.emin -> 0 <= v1 -> v1 <= v2 -> round_units u v1 <= round_units u v2.
Proof.
  intros Hu H1 H12. destruct (Z.eq_dec v1 0) as [->|Hne].
  - rewrite round_units_zero by assumption. apply round_units_bounds; lia.
  - apply round_units_mono; lia.
Qed.

Lemma round_units_number (m : positive) (e : Z) (s : bool) :
  F64.valid (S754_finite s m e) = true ->
  round_units F64.emin (Z.pos m * 2 ^ (e - F64.emin)) = Z.pos m * 2 ^ (e - F64.emin).
Proof.
  intros Hv.
  pose proof (number_bound (S754_finite s m e)) as B.
  unfold F64.is_number in B. rewrite Hv in B. specialize (B eq_refl).
  cbn [F64.units] in B. rewrite cond_Zopp_mul in B.
  destruct (F64Value.valid_finite s m e Hv) as (He & _).
  unfold F64.valid, valid_binary, bounded, canonical_mantissa in Hv.
  apply andb_true_iff in Hv as [Hc _]. apply Z.eqb_eq in Hc.
  rewrite fexp_unfold in Hc.
  unfold round_units. cbv zeta. rewrite log2_scale by lia.
  replace (Z.log2 (Z.pos m)) with (Z.pos (digits2_pos m) - 1)
    by (rewrite digits_log2; lia).
  replace (Z.pos (digits2_pos m) - 1 + (e - F64.emin) + 1 + F64.emin - F64.prec)
    with (Z.pos (digits2_pos m) + e - F64.prec) by lia.
  rewrite Hc, nearest_even_exact by lia.
  apply Z.min_l. pose proof (pow2_pos (e - F64.emin) ltac:(lia)).
  destruct s; cbn [cond_Zopp] in B; lia.
Qed.

Lemma round_signed_number (x : float) :
  F64.is_number x = true -> round_signed F64.emin (F64.units x) = F64.units x.
Proof.
  intros H. unfold F64.is_number in H. apply andb_true_iff in H as [Hf Hv].
  destruct x as [s|s| |s m e]; try discriminate Hf; try reflexivity.
  cbn [F64.units]. rewrite cond_Zopp_mul.
  destruct (F64Value.valid_finite s m e Hv) as (He & _).
  pose proof (pow2_pos (e - F64.emin) ltac:(lia)).
  destruct s; cbn [cond_Zopp].
  - rewrite round_signed_neg by lia. rewrite Z.opp_involutive.
    now rewrite (round_units_number m e true).
  - rewrite round_signed_pos by lia. now apply (round_units_number m e false).
Qed.

(** *** Sums *)

Lemma cond_Zopp_zero (s : bool) : cond_Zopp s 0 = 0.
Proof. now destruct s. Qed.

Lemma finite_value (s : bool) (m : positive) (e : Z) :
  is_value (S754_finite s m e) = true -> F64.is_number (S754_finite s m e) = true.
Proof.
  unfold is_value, F64.is_number. intros H. apply andb_true_iff in H as [Hv _].
  exact Hv.
Qed.

(** The sum of a value and a number: the rounding of the sum of the two,
    or the infinity that the value is. *)
Lemma add_rank (x o : float) :
  is_value x = true -> F64.is_number o = true ->
  is_value (F64.add x o) = true /\
  rank (F64.add x o) =
    if F64.is_finite x then round_signed F64.emin (rank x + F64.units o) else rank x.
Proof.
  intros Hx Ho. pose proof (number_value o Ho) as Vo.
  pose proof (round_signed_number o Ho) as Ro.
  destruct x as [sx|sx| |sx mx ex]; try discriminate Hx.
  - (* zero *)
    destruct o as [so|so| |so mo eo]; try discriminate Ho.
    + destruct sx, so; split; reflexivity.
    + split; [exact Vo|]. cbn [F64.is_finite rank F64.units Z.add] in *. now rewrite Ro.
  - (* infinity *)
    destruct o as [so|so| |so mo eo]; try discriminate Ho; split; reflexivity.
  - (* a number other than zero *)
    pose proof (finite_value sx mx ex Hx) as Nx.
    pose proof (round_signed_number _ Nx) as Rx.
    destruct o as [so|so| |so mo eo]; try discriminate Ho.
    + split; [exact Hx|]. cbn [F64.is_finite rank]. rewrite Z.add_0_r. now rewrite Rx.
    + unfold F64.is_number in Nx, Ho. cbn [F64.is_finite andb] in Nx, Ho.
      destruct (F64Value.valid_finite _ _ _ Nx) as (Hex & _).
      destruct (F64Value.valid_finite _ _ _ Ho) as (Heo & _).
      unfold F64.add, SFadd. cbv zeta.
      change (IntDef.Z.min ex eo) with (Z.min ex eo).
      set (ez := Z.min ex eo).
      destruct (shl_align_value mx ex ez ltac:(lia)) as [Vx _].
      destruct (shl_align_value mo eo ez ltac:(lia)) as [Vo' _].
      destruct (binary_normalize_spec
                  (cond_Zopp sx (Z.pos (fst (shl_align mx ex ez))) +
                   cond_Zopp so (Z.pos (fst (shl_align mo eo ez))))
                  ez F64.emin false ltac:(lia) ltac:(lia)) as [H1 H2].
      split; [exact H1|]. rewrite H2. cbn [F64.is_finite rank F64.units]. f_equal.
      rewrite Z.mul_add_distr_r, !cond_Zopp_mul, Vx, Vo', <- !Z.mul_assoc.
      rewrite <- !pow2_add by lia.
      replace (ex - ez + (ez - F64.emin)) with (ex - F64.emin) by lia.
      replace (eo - ez + (ez - F64.emin)) with (eo - F64.emin) by lia.
      reflexivity.
Qed.

Lemma add_mono (x1 x2 o : float) :
  is_value x1 = true -> is_value x2 = true -> F64.is_number o = true ->
  rank x1 <= rank x2 -> rank (F64.add x1 o) <= rank (F64.add x2 o).
Proof.
  intros H1 H2 Ho H.
  destruct (add_rank x1 o H1 Ho) as [_ ->], (add_rank x2 o H2 Ho) as [_ ->].
  pose proof (round_signed_bounds F64.emin (rank x1 + F64.units o) ltac:(lia)).
  pose proof (round_signed_bounds F64.emin (rank x2 + F64.units o) ltac:(lia)).
  pose proof overflow_pos.
  destruct (value_cases x1 H1) as [[N1 R1]|[s1 ->]],
           (value_cases x2 H2) as [[N2 R2]|[s2 ->]].
  - replace (F64.is_finite x1) with true
      by (unfold F64.is_number in N1; now destruct (F64.is_finite x1)).
    replace (F64.is_finite x2) with true
      by (unfold F64.is_number in N2; now destruct (F64.is_finite x2)).
    apply round_signed_mono; lia.
  - replace (F64.is_finite x1) with true
      by (unfold F64.is_number in N1; now destruct (F64.is_finite x1)).
    pose proof (number_bound x1 N1). rewrite R1 in H.
    cbn [F64.is_finite rank] in *. destruct s2; cbn [cond_Zopp] in *; lia.
  - replace (F64.is_finite x2) with true
      by (unfold F64.is_number in N2; now destruct (F64.is_finite x2)).
    pose proof (number_bound x2 N2). rewrite R2 in H.
    cbn [F64.is_finite rank] in *. destruct s1; cbn [cond_Zopp] in *; lia.
  - exact H.
Qed.

(** *** Products *)

Lemma mul_exponent (sx ss : bool) (mx ms : positive) (ex es : Z) :
  F64.valid (S754_finite sx mx ex) = true ->
  F64.valid (S754_finite ss ms es) = true ->
  ex + es <= fexp F64.prec F64.emax (Z.pos (digits2_pos (mx * ms)) + (ex + es)).
Proof.
  intros Hx Hs. rewrite fexp_unfold.
  destruct (F64Value.valid_finite _ _ _ Hx) as (Hex & _ & Lx).
  destruct (F64Value.valid_finite _ _ _ Hs) as (Hes & _ & Ls).
  assert (Hemin : F64.emin = -1074) by reflexivity.
  assert (Hprec : F64.prec = 53) by reflexivity.
  pose proof (F64Value.digits2_pos_upper (mx * ms)) as U.
  set (d := Z.pos (digits2_pos (mx * ms))) in *.
  rewrite Pos2Z.inj_mul in U.
  assert (Hd : 2 ^ 52 <= Z.pos mx * Z.pos ms -> 53 <= d).
  { intros H. destruct (Z.le_gt_cases 53 d) as [|Hlt]; [assumption|exfalso].
    assert (2 ^ d <= 2 ^ 52) by (apply pow2_le; unfold d; lia). lia. }
  destruct (Z.eq_dec ex F64.emin) as [Ex|Ex], (Z.eq_dec es F64.emin) as [Es|Es].
  - lia.
  - specialize (Ls ltac:(lia)). assert (53 <= d) by (apply Hd; nia). lia.
  - specialize (Lx ltac:(lia)). assert (53 <= d) by (apply Hd; nia). lia.
  - specialize (Lx ltac:(lia)). assert (53 <= d) by (apply Hd; nia). lia.
Qed.

(** The product of a value that is not negative by a number other than
    zero: the rounding of the product of the two, or infinity, with the
    sign of the number. *)
Lemma mul_rank (x : float) (ss : bool) (ms : positive) (es : Z) :
  is_value x = true -> 0 <= rank x ->
  F64.valid (S754_finite ss ms es) = true ->
  is_value (F64.mul x (S754_finite ss ms es)) = true /\
  rank (F64.mul x (S754_finite ss ms es)) =
    cond_Zopp ss
      (if F64.is_finite x
       then round_units (Z.min (F64.emin + es) F64.emin)
              (rank x * Z.pos ms *
               2 ^ (es + F64.emin - Z.min (F64.emin + es) F64.emin))
       else overflow).
Proof.
  intros Hx H0 Hs. pose proof overflow_pos.
  set (u := Z.min (F64.emin + es) F64.emin).
  destruct x as [sx|sx| |sx mx ex]; try discriminate Hx.
  - split; [reflexivity|]. cbn [F64.is_finite rank F64.units F64.mul SFmul].
    rewrite !Z.mul_0_l, round_units_zero, cond_Zopp_zero by (unfold u; lia).
    reflexivity.
  - destruct sx; cbn [rank cond_Zopp] in H0; [lia|]. split; reflexivity.
  - pose proof (finite_value sx mx ex Hx) as Nx.
    unfold F64.is_number in Nx. cbn [F64.is_finite andb] in Nx.
    destruct (F64Value.valid_finite _ _ _ Nx) as (Hex & _).
    pose proof (pow2_pos (ex - F64.emin) ltac:(lia)).
    cbn [rank F64.units] in H0. rewrite cond_Zopp_mul in H0.
    destruct sx; cbn [cond_Zopp] in H0; [lia|].
    unfold F64.mul, SFmul. cbn [xorb].
    destruct (binary_round_aux_spec ss (mx * ms) (ex + es) u) as [B1 B2].
    + now apply (mul_exponent false ss).
    + unfold u. lia.
    + unfold u. lia.
    + split; [exact B1|]. rewrite B2. cbn [F64.is_finite rank F64.units cond_Zopp].
      do 2 f_equal. rewrite Pos2Z.inj_mul.
      replace (ex + es - u) with ((ex - F64.emin) + (es + F64.emin - u)) by lia.
      rewrite pow2_add by (unfold u; lia). ring.
Qed.

Lemma mul_mono (x1 x2 : float) (ss : bool) (ms : positive) (es : Z) :
  is_value x1 = true -> is_value x2 = true ->
  F64.valid (S754_finite ss ms es) = true ->
  0 <= rank x1 -> rank x1 <= rank x2 ->
  if ss
  then rank (F64.mul x2 (S754_finite ss ms es)) <= rank (F64.mul x1 (S754_finite ss ms es))
  else rank (F64.mul x1 (S754_finite ss ms es)) <= rank (F64.mul x2 (S754_finite ss ms es)).
Proof.
  intros H1 H2 Hs H0 H. pose proof overflow_pos.
  destruct (mul_rank x1 ss ms es H1 H0 Hs) as [_ ->].
  destruct (mul_rank x2 ss ms es H2 ltac:(lia) Hs) as [_ ->].
  set (u := Z.min (F64.emin + es) F64.emin).
  set (k := es + F64.emin - u).
  pose proof (pow2_pos k ltac:(unfold k, u; lia)) as Hk.
  assert (HM : (if F64.is_finite x1
                then round_units u (rank x1 * Z.pos ms * 2 ^ k) else overflow) <=
               (if F64.is_finite x2
                then round_units u (rank x2 * Z.pos ms * 2 ^ k) else overflow)).
  { pose proof (round_units_bounds u (rank x1 * Z.pos ms * 2 ^ k)
                  ltac:(unfold u; lia) ltac:(nia)).
    destruct (value_cases x1 H1) as [[N1 R1]|[s1 ->]],
             (value_cases x2 H2) as [[N2 R2]|[s2 ->]].
    - replace (F64.is_finite x1) with true
        by (unfold F64.is_number in N1; now destruct (F64.is_finite x1)).
      replace (F64.is_finite x2) with true
        by (unfold F64.is_number in N2; now destruct (F64.is_finite x2)).
      apply round_units_mono0; [unfold u; lia|nia|].
      apply Z.mul_le_mono_nonneg_r; [lia|].
      apply Z.mul_le_mono_nonneg_r; lia.
    - replace (F64.is_finite x1) with true
        by (unfold F64.is_number in N1; now destruct (F64.is_finite x1)).
      cbn [F64.is_finite]. lia.
    - pose proof (number_bound x2 N2). rewrite R2 in H.
      destruct s1; cbn [rank cond_Zopp] in *; lia.
    - cbn [F64.is_finite]. lia. }
  destruct ss; cbn [cond_Zopp]; lia.
Qed.

(** *** Integers *)

Lemma of_int_rank (k : Z) :
  is_value (F64.of_int k) = true /\
  rank (F64.of_int k) = round_signed F64.emin (k * 2 ^ (0 - F64.emin)).
Proof. apply binary_normalize_spec; unfold F64.emin, F64.emax, F64.prec; lia. Qed.

Lemma of_int_mono (k1 k2 : Z) :
  0 <= k1 -> k1 <= k2 ->
  0 <= rank (F64.of_int k1) /\ rank (F64.of_int k1) <= rank (F64.of_int k2).
Proof.
  intros H0 H. destruct (of_int_rank k1) as [_ ->], (of_int_rank k2) as [_ ->].
  pose proof (pow2_pos (0 - F64.emin) ltac:(unfold F64.emin, F64.emax, F64.prec; lia)).
  split.
  - change 0 with (round_signed F64.emin 0) at 1. apply round_signed_mono; [lia|nia].
  - apply round_signed_mono; [lia|]. apply Z.mul_le_mono_nonneg_r; lia.
Qed.

(** *** Edges *)

Lemma number_finite (x : float) :
  F64.is_number x = true -> F64.eqb x F64.zero = false ->
  exists s m e, x = S754_finite s m e /\ F64.valid x = true /\
                F64.ltb F64.zero x = negb s.
Proof.
  intros H Hz. unfold F64.is_number in H. apply andb_true_iff in H as [Hf Hv].
  destruct x as [s|s| |s m e]; try discriminate Hf.
  - destruct s; discriminate Hz.
  - exists s, m, e. split; [reflexivity|]. split; [exact Hv|]. now destruct s.
Qed.

(** The edges of an axis never go against the sign of the scale. *)
Lemma edge_mono (scale origin : float) (k1 k2 : Z) :
  F64.is_number scale = true -> F64.eqb scale F64.zero = false ->
  F64.is_number origin = true -> 0 <= k1 -> k1 <= k2 ->
  let edge k := F64.add (F64.mul (F64.of_int k) scale) origin in
  if F64.ltb F64.zero scale
  then F64.leb (edge k1) (edge k2) = true
  else F64.leb (edge k2) (edge k1) = true.
Proof.
  intros Hs Hz Ho H0 H. cbv zeta.
  destruct (number_finite scale Hs Hz) as (ss & ms & es & -> & Hv & ->).
  destruct (of_int_rank k1) as [V1 _], (of_int_rank k2) as [V2 _].
  destruct (of_int_mono k1 k2 H0 H) as [R0 R].
  destruct (mul_rank _ ss ms es V1 R0 Hv) as [M1 _].
  destruct (mul_rank _ ss ms es V2 ltac:(lia) Hv) as [M2 _].
  destruct (add_rank _ origin M1 Ho) as [A1 _].
  destruct (add_rank _ origin M2 Ho) as [A2 _].
  pose proof (mul_mono _ _ ss ms es V1 V2 Hv R0 R) as HM.
  destruct ss; cbn [negb]; apply rank_leb; try assumption; now apply add_mono.
Qed.

(** ** Monotonic grids *)

Lemma ascending_adjacent (g : list float) :
  (forall i, (i + 1 < length g)%nat ->
     F64.ltb (edge g i) (edge g (i + 1)) = true) ->
  ascending g = true.
Proof.
  induction g as [|x g IH]; intros H; [reflexivity|].
  destruct g as [|y g]; [reflexivity|].
  change (F64.ltb x y && ascending (y :: g) = true).
  apply andb_true_iff. split.
  - apply (H 0%nat). simpl. lia.
  - apply IH. intros i Hi. apply (H (S i)). simpl in *. lia.
Qed.

Lemma descending_adjacent (g : list float) :
  (forall i, (i + 1 < length g)%nat ->
     F64.ltb (edge g (i + 1)) (edge g i) = true) ->
  descending g = true.
Proof.
  induction g as [|x g IH]; intros H; [reflexivity|].
  destruct g as [|y g]; [reflexivity|].
  change (F64.ltb y x && descending (y :: g) = true).
  apply andb_true_iff. split.
  - apply (H 0%nat). simpl. lia.
  - apply IH. intros i Hi. apply (H (S i)). simpl in *. lia.
Qed.

Lemma exact_edges_edge (scale origin : float) (count : Z) (i : nat) :
  exact_edges scale origin count = true -> Z.of_nat i <= count ->
  let x := F64.add (F64.mul (F64.of_int (Z.of_nat i)) scale) origin in
  F64.is_number x = true /\
  F64.units x = Z.of_nat i * F64.units scale + F64.units origin.
Proof.
  intros H Hi. unfold exact_edges in H. rewrite forallb_forall in H.
  specialize (H i). unfold exact_edge in H. cbv zeta in *.
  apply andb_true_iff in H as [Hn Hu].
  - apply Z.eqb_eq in Hu. auto.
  - apply in_seq. lia.
Qed.

Lemma opp_number (x : float) :
  F64.is_number x = true -> F64.is_number (F64.opp x) = true.
Proof. destruct x as [s|s| |s m ex]; intros H; try discriminate H; exact H. Qed.

Lemma opp_nonzero (x : float) :
  F64.eqb x F64.zero = false -> F64.eqb (F64.opp x) F64.zero = false.
Proof. destruct x as [[]|[]| |[] m ex]; intros H; try discriminate H; reflexivity. Qed.

(** ** Monotonic grids, whatever the rounding *)

Lemma nondecreasing_adjacent (g : list float) :
  (forall i, (i + 1 < length g)%nat ->
     F64.leb (edge g i) (edge g (i + 1)) = true) ->
  nondecreasing g = true.
Proof.
  induction g as [|x g IH]; intros H; [reflexivity|].
  destruct g as [|y g]; [reflexivity|].
  change (F64.leb x y && nondecreasing (y :: g) = true).
  apply andb_true_iff. split.
  - apply (H 0%nat). simpl. lia.
  - apply IH. intros i Hi. apply (H (S i)). simpl in *. lia.
Qed.

Lemma nonincreasing_adjacent (g : list float) :
  (forall i, (i + 1 < length g)%nat ->
     F64.leb (edge g (i + 1)) (edge g i) = true) ->
  nonincreasing g = true.
Proof.
  induction g as [|x g IH]; intros H; [reflexivity|].
  destruct g as [|y g]; [reflexivity|].
  change (F64.leb y x && nonincreasing (y :: g) = true).
  apply andb_true_iff. split.
  - apply (H 0%nat). simpl. lia.
  - apply IH. intros i Hi. apply (H (S i)). simpl in *. lia.
Qed.

Lemma ltb_split (x y : float) : F64.ltb x y = F64.leb x y && negb (F64.eqb x y).
Proof.
  rewrite F64Order.leb_spec. destruct (F64.ltb x y) eqn:L.
  - now rewrite (F64Order.ltb_not_eqb _ _ L).
  - now destruct (F64.eqb x y).
Qed.

(** Strictly increasing is never decreasing and never repeating. *)
Lemma ascending_split (g : list float) :
  ascending g = nondecreasing g && no_repeat g.
Proof.
  induction g as [|x g IH]; [reflexivity|]. destruct g as [|y g]; [reflexivity|].
  change (F64.ltb x y && ascending (y :: g) =
          F64.leb x y && nondecreasing (y :: g) &&
          (negb (F64.eqb x y) && no_repeat (y :: g))).
  rewrite IH, ltb_split.
  destruct (F64.leb x y), (F64.eqb x y), (nondecreasing (y :: g)); reflexivity.
Qed.

Lemma descending_split (g : list float) :
  descending g = nonincreasing g && no_repeat g.
Proof.
  induction g as [|x g IH]; [reflexivity|]. destruct g as [|y g]; [reflexivity|].
  change (F64.ltb y x && descending (y :: g) =
          F64.leb y x && nonincreasing (y :: g) &&
          (negb (F64.eqb x y) && no_repeat (y :: g))).
  rewrite IH, ltb_split, (F64Order.eqb_sym x y).
  destruct (F64.leb y x), (F64.eqb y x), (nonincreasing (y :: g)); reflexivity.
Qed.

(** An axis runs with the sign of its scale, and strictly so unless two
    edges next to each other are equal. *)
Lemma axis_monotonic (scale origin : float) (count : Z) :
  F64.is_number scale = true -> F64.eqb scale F64.zero = false ->
  F64.is_number origin = true ->
  let g := map (fun p => F64.add (F64.mul p scale) origin) (arange (count + 1)) in
  (if F64.ltb F64.zero scale then nondecreasing g else nonincreasing g) = true /\
  strictly_monotonic g = no_repeat g.
Proof.
  intros Hs Hz Ho g.
  assert (Hlen : Z.of_nat (length g) = Z.max 0 (count + 1)).
  { unfold g. rewrite length_map. apply arange_length. }
  assert (Hedge : forall i, (i < length g)%nat ->
            edge g i = F64.add (F64.mul (F64.of_int (Z.of_nat i)) scale) origin).
  { intros i Hi. unfold g. rewrite edge_map_arange by lia. reflexivity. }
  assert (W : (if F64.ltb F64.zero scale then nondecreasing g else nonincreasing g)
              = true).
  { pose proof (fun k1 k2 => edge_mono scale origin k1 k2 Hs Hz Ho) as M.
    cbv zeta in M. destruct (F64.ltb F64.zero scale).
    - apply nondecreasing_adjacent. intros i Hi.
      rewrite !Hedge by lia. apply M; lia.
    - apply nonincreasing_adjacent. intros i Hi.
      rewrite !Hedge by lia. apply M; lia. }
  split; [exact W|].
  unfold strictly_monotonic. rewrite ascending_split, descending_split.
  destruct (F64.ltb F64.zero scale); rewrite W;
    destruct (nondecreasing g), (nonincreasing g), (no_repeat g); reflexivity.
Qed.




(** ** Further properties *)

(** On a strictly monotonic grid a point lies outside the closed interval
    from the first edge to the last exactly when it is below every edge or
    above every edge. *)
Lemma outside_ascending (g : list float) (q : float) :
  ascending g = true -> (2 <= length g)%nat ->
  (outside g q = true <->
   F64.ltb q (edge g 0) = true \/ F64.ltb (edge g (length g - 1)) q = true).
Proof.
  intros Hg Hn. unfold outside. rewrite orb_true_iff. split.
  - intros [H|H].
    + left. apply (forallb_edge _ g); [exact H|lia].
    + right. apply (forallb_edge (fun x => F64.ltb x q) g); [exact H|lia].
  - intros [H|H]; [left|right]; apply forallb_forall; intros x Hx;
      destruct (In_nth g x F64.nan Hx) as (k & Hk & <-); fold (edge g k).
    + apply (ascending_le g Hg Hn 0%nat k q); auto; lia.
    + destruct (Nat.eq_dec k (length g - 1)) as [->|Hne]; [assumption|].
      eapply F64Order.ltb_trans; [|exact H]. apply ascending_edges; auto; lia.
Qed.

Lemma outside_descending (g : list float) (q : float) :
  descending g = true -> (2 <= length g)%nat ->
  (outside g q = true <->
   F64.ltb q (edge g (length g - 1)) = true \/ F64.ltb (edge g 0) q = true).
Proof.
  intros Hg Hn. unfold outside. rewrite orb_true_iff. split.
  - intros [H|H].
    + left. apply (forallb_edge _ g); [exact H|lia].
    + right. apply (forallb_edge (fun x => F64.ltb x q) g); [exact H|lia].
  - intros [H|H]; [left|right]; apply forallb_forall; intros x Hx;
      destruct (In_nth g x F64.nan Hx) as (k & Hk & <-); fold (edge g k).
    + destruct (Nat.eq_dec k (length g - 1)) as [->|Hne]; [assumption|].
      eapply F64Order.ltb_trans; [exact H|]. apply descending_edges; auto; lia.
    + apply (descending_le g Hg Hn 0%nat k q); auto; lia.
Qed.

(** On a grid that is not monotonic the search of a point depends on the
    point before it: on the edges [0, 1, 3, 2] the point [2.0] is given
    pixel 2 after the point [1.5], and pixel 0 on its own. *)
Lemma world_to_image_unsorted_grid :
  let g := map F64.of_int [0; 1; 3; 2] in
  world_to_image [F64.of_dyadic 3 (-1); F64.of_int 2] g = Ok [1; 2] /\
  world_to_image [F64.of_int 2] g = Ok [0].
Proof. split; vm_compute; reflexivity. Qed.

(** X1: the results are positional. On a strictly monotonic grid, when
    [world_to_image] returns, it returns one index for each point, and the
    index at each position is the one the point at that position gets on
    its own: the points before it in the batch, which narrow the interval
    its search starts from, do not change it. *)
Theorem world_to_image_pointwise (points g : list float) (r : list Z) :
  strictly_monotonic g = true ->
  world_to_image points g = Ok r ->
  length r = length points /\
  forall k : nat, (k < length points)%nat ->
    world_to_image [nth k points F64.nan] g = Ok [nth k r 0].
Proof.
  intros Hg H. destruct (Nat.lt_ge_cases (length g) 2) as [Hs|Hn].
  - rewrite world_to_image_short in H by assumption. discriminate.
  - rewrite world_to_image_locate in H by assumption.
    destruct (forallb (in_image g) (map (locate g) points)) eqn:E; [|discriminate].
    injection H as <-. split; [apply length_map|].
    intros k Hk. apply world_to_image_one; [assumption|].
    rewrite (nth_indep _ 0 (locate g F64.nan)) by (rewrite length_map; assumption).
    rewrite map_nth. split; [reflexivity|].
    rewrite forallb_forall in E. apply E. apply in_map. now apply nth_In.
Qed.

Lemma world_to_image_pointwise_witness :
  let g := map F64.of_int [0; 1; 2; 3] in
  let points := [F64.zero; F64.of_dyadic 5 (-1); F64.of_int 3] in
  strictly_monotonic g = true /\
  world_to_image points g = Ok [0; 2; 2] /\
  world_to_image [nth 1 points F64.nan] g = Ok [2].
Proof.
  split; [reflexivity|]. split; [reflexivity|].
  apply (world_to_image_pointwise
           [F64.zero; F64.of_dyadic 5 (-1); F64.of_int 3]
           (map F64.of_int [0; 1; 2; 3]) [0; 2; 2] eq_refl eq_refl).
  simpl. lia.
Defined.

(** X2: the errors of [world_to_image]. It raises [IndexError] exactly
    when the grid has fewer than two edges, whatever the points are; on
    every other grid it returns or raises the [ValueError] of a location
    that is not in the image. It never fails on an assertion. *)
Theorem world_to_image_errors (points g : list float) :
  (world_to_image points g = Raise IndexError <-> (length g < 2)%nat) /\
  ((2 <= length g)%nat ->
   world_to_image points g = Raise value_error \/
   exists r : list Z, world_to_image points g = Ok r) /\
  world_to_image points g <> Raise AssertionError.
Proof.
  destruct (Nat.lt_ge_cases (length g) 2) as [Hs|Hn].
  - rewrite world_to_image_short by assumption.
    repeat split; try discriminate; auto; lia.
  - rewrite world_to_image_indices by assumption.
    destruct (forallb (in_image g) (pixel_indices g points)).
    + repeat split; try discriminate; try lia. intros _. right. eexists. reflexivity.
    + repeat split; try discriminate; try lia. intros _. now left.
Qed.

Lemma world_to_image_errors_witness :
  world_to_image [] [F64.of_int 7] = Raise IndexError /\
  (world_to_image [F64.of_int 9] [F64.zero; F64.one] = Raise value_error \/
   exists r : list Z, world_to_image [F64.of_int 9] [F64.zero; F64.one] = Ok r).
Proof.
  split.
  - apply (world_to_image_errors [] [F64.of_int 7]). simpl. lia.
  - apply (world_to_image_errors [F64.of_int 9] [F64.zero; F64.one]). simpl. lia.
Defined.

(** X3: NaN is in no pixel. On a strictly monotonic grid the point NaN is
    rejected. *)
Theorem nan_rejected (g : list float) :
  strictly_monotonic g = true -> (2 <= length g)%nat ->
  world_to_image [F64.nan] g = Raise value_error.
Proof.
  intros Hg Hn. rewrite world_to_image_locate by assumption.
  cbn [map forallb]. rewrite andb_true_r.
  assert (E : in_image g (locate g F64.nan) = false); [|now rewrite E].
  unfold locate. change (F64.eqb F64.nan (edge g (length g - 1))) with false.
  apply orb_true_iff in Hg as [Hg|Hg].
  - rewrite (ascending_forward g Hg Hn), binsearch_all_true.
    + unfold in_image.
      destruct (Z.ltb_spec (Z.of_nat (length g) - 1) (Z.of_nat (length g) - 1));
        [lia|apply andb_false_r].
    + intros k Hk. cbn [side_cmp]. fold (edge g k).
      rewrite np_le_number by (now apply ascending_not_nan). reflexivity.
  - rewrite (descending_backward g Hg Hn), binsearch_all_true.
    + rewrite length_rev. unfold in_image.
      destruct (Z.leb_spec 0 (Z.of_nat (length g) - (Z.of_nat (length g) + 1)));
        [lia|reflexivity].
    + rewrite length_rev. intros k Hk. rewrite rev_nth by assumption.
      cbn [side_cmp]. fold (edge g (length g - S k)).
      rewrite np_lt_number by (apply descending_not_nan; auto; lia).
      apply orb_true_r.
Qed.

Lemma nan_rejected_witness :
  world_to_image [F64.nan] (map F64.of_int [3; 2; 1; 0]) = Raise value_error.
Proof.
  apply (nan_rejected (map F64.of_int [3; 2; 1; 0])).
  - reflexivity.
  - simpl. lia.
Defined.
Lemma edge_rev (g : list float) (k : nat) :
  (k < length g)%nat -> edge (rev g) k = edge g (length g - S k).
Proof. intros H. unfold edge. now apply rev_nth. Qed.

Lemma ascending_rev (g : list float) :
  ascending g = true -> descending (rev g) = true.
Proof.
  intros Hg. apply descending_adjacent. rewrite length_rev. intros i Hi.
  rewrite !edge_rev by lia. apply ascending_edges; auto; lia.
Qed.

(** X4: orientation symmetry. A point that is on no edge and lies in pixel
    [i] of an ascending grid lies in pixel [pixel_count - 1 - i] of the
    same grid taken in descending order. *)
Theorem orientation_symmetry (g : list float) (q : float) (i : nat) :
  ascending g = true -> (i + 1 < length g)%nat ->
  (forall k : nat, (k < length g)%nat -> F64.eqb q (edge g k) = false) ->
  world_to_image [q] g = Ok [Z.of_nat i] ->
  world_to_image [q] (rev g) = Ok [Z.of_nat (length g - 1 - 1 - i)].
Proof.
  intros Hg Hi Hq H.
  apply world_to_image_one in H as [H _]; [|lia].
  apply (locate_ascending_inside g Hg) in H as [H1 H2]; try lia.
  2: apply Hq; lia.
  rewrite F64Order.leb_spec, (F64Order.eqb_sym (edge g i) q), (Hq i), orb_false_r in H1
    by lia.
  pose proof (ascending_rev g Hg) as Hd.
  apply world_to_image_one; [rewrite length_rev; lia|]. split.
  - apply (locate_descending_inside (rev g) Hd); rewrite ?length_rev; try lia.
    + rewrite edge_rev by lia. replace (length g - S (length g - 1))%nat with 0%nat by lia.
      apply Hq. lia.
    + rewrite !edge_rev by lia.
      replace (length g - S (length g - 1 - 1 - i))%nat with (i + 1)%nat by lia.
      replace (length g - S (length g - 1 - 1 - i + 1))%nat with i by lia.
      split; [|assumption].
      rewrite F64Order.leb_spec, H2. reflexivity.
  - apply in_image_pixel. rewrite length_rev. lia.
Qed.

Lemma orientation_symmetry_witness :
  let g := map F64.of_int [0; 1; 2; 3] in
  let q := F64.of_dyadic 5 (-1) in
  world_to_image [q] g = Ok [2] /\ world_to_image [q] (rev g) = Ok [0].
Proof.
  split; [reflexivity|].
  apply (orientation_symmetry (map F64.of_int [0; 1; 2; 3]) (F64.of_dyadic 5 (-1)) 2).
  - reflexivity.
  - simpl. lia.
  - intros [|[|[|[|k]]]] Hk; try reflexivity. simpl in Hk. lia.
  - reflexivity.
Defined.
(** ** Which points are accepted *)

Lemma leb_ltb_trans (x y z : float) :
  F64.leb x y = true -> F64.ltb y z = true -> F64.ltb x z = true.
Proof.
  rewrite F64Order.leb_spec. intros H G. apply orb_true_iff in H as [H|H].
  - eapply F64Order.ltb_trans; eassumption.
  - eapply F64Order.eqb_ltb_trans; eassumption.
Qed.

Lemma ltb_leb_trans (x y z : float) :
  F64.ltb x y = true -> F64.leb y z = true -> F64.ltb x z = true.
Proof.
  rewrite F64Order.leb_spec. intros H G. apply orb_true_iff in G as [G|G].
  - eapply F64Order.ltb_trans; eassumption.
  - eapply F64Order.ltb_eqb_trans; eassumption.
Qed.

Lemma ltb_leb (x y : float) : F64.ltb x y = true -> F64.leb x y = true.
Proof. intros H. rewrite F64Order.leb_spec, H. reflexivity. Qed.

Lemma leb_not_nan (x y : float) :
  F64.leb x y = true -> F64.is_nan x = false /\ F64.is_nan y = false.
Proof.
  rewrite F64Order.leb_spec. intros H. apply orb_true_iff in H as [H|H].
  - now apply F64Order.ltb_not_nan.
  - now apply F64Order.eqb_not_nan.
Qed.

Lemma leb_gtb_false (x y : float) : F64.leb x y = true -> F64.ltb y x = false.
Proof.
  intros H. destruct (leb_not_nan x y H) as [Hx Hy].
  rewrite F64Order.leb_not_gtb in H by assumption.
  now apply negb_true_iff in H.
Qed.

Lemma in_image_bounds (g : list float) (k : Z) :
  in_image g k = true <-> 0 <= k < Z.of_nat (length g) - 1.
Proof.
  unfold in_image. rewrite andb_true_iff, Z.leb_le, Z.ltb_lt. reflexivity.
Qed.

(** On an ascending grid the located index is a pixel exactly for the
    points from the first edge to the last. *)
Lemma locate_in_image_ascending (g : list float) (q : float) :
  ascending g = true -> (2 <= length g)%nat ->
  (in_image g (locate g q) = true <->
   F64.leb (edge g 0) q = true /\ F64.leb q (edge g (length g - 1)) = true).
Proof.
  intros Hg Hn.
  assert (Hfl : F64.ltb (edge g 0) (edge g (length g - 1)) = true)
    by (apply ascending_edges; auto; lia).
  destruct (F64.eqb q (edge g (length g - 1))) eqn:Hq.
  - rewrite (locate_ascending_end g Hg Hn q Hq). split.
    + intros _. split.
      * apply ltb_leb. eapply F64Order.ltb_eqb_trans; [exact Hfl|].
        now rewrite F64Order.eqb_sym.
      * rewrite F64Order.leb_spec, Hq. apply orb_true_r.
    + intros _. apply in_image_bounds. lia.
  - destruct (right_spec g Hg Hn q) as (Hr & Hlo & Hup).
    unfold locate. rewrite (ascending_forward g Hg Hn), Hq.
    rewrite in_image_bounds. split.
    + intros Hin.
      assert (H0 : F64.ltb q (edge g 0) = false) by (apply Hlo; lia).
      assert (H1 : F64.ltb q (edge g (length g - 1)) = true) by (apply Hup; lia).
      split.
      * rewrite F64Order.leb_not_gtb, H0; auto.
        -- apply ascending_not_nan; auto; lia.
        -- now apply F64Order.ltb_not_nan in H1.
      * now apply ltb_leb.
    + intros [H0 H1]. apply leb_gtb_false in H0.
      assert (H2 : F64.ltb q (edge g (length g - 1)) = true).
      { rewrite F64Order.leb_spec, Hq, orb_false_r in H1. exact H1. }
      destruct (Nat.eq_dec (binsearch Right g q) 0) as [E|E].
      { rewrite (Hup 0%nat) in H0 by lia. discriminate. }
      destruct (Nat.eq_dec (binsearch Right g q) (length g)) as [E'|E'].
      { rewrite (Hlo (length g - 1)%nat) in H2 by lia. discriminate. }
      lia.
Qed.

Lemma locate_in_image_descending (g : list float) (q : float) :
  descending g = true -> (2 <= length g)%nat ->
  (in_image g (locate g q) = true <->
   F64.leb (edge g (length g - 1)) q = true /\ F64.leb q (edge g 0) = true).
Proof.
  intros Hg Hn.
  assert (Hfl : F64.ltb (edge g (length g - 1)) (edge g 0) = true)
    by (apply descending_edges; auto; lia).
  assert (N : forall k, (k < length g)%nat ->
            np_lt (edge g k) q = F64.ltb (edge g k) q || F64.is_nan q).
  { intros k Hk. apply np_lt_number. now apply descending_not_nan. }
  destruct (F64.eqb q (edge g (length g - 1))) eqn:Hq.
  - rewrite (locate_descending_end g Hg Hn q Hq). split.
    + intros _. split.
      * rewrite F64Order.leb_spec, F64Order.eqb_sym, Hq. apply orb_true_r.
      * apply ltb_leb. eapply F64Order.eqb_ltb_trans; [exact Hq|exact Hfl].
    + intros _. apply in_image_bounds. lia.
  - destruct (left_spec g Hg Hn q) as (Hr & Hlo & Hup).
    unfold locate. rewrite (descending_backward g Hg Hn), Hq.
    rewrite in_image_bounds. split.
    + intros Hin.
      assert (H0 : np_lt (edge g 0) q = false) by (apply Hup; lia).
      assert (H1 : np_lt (edge g (length g - 1)) q = true) by (apply Hlo; lia).
      rewrite N in H0, H1 by lia.
      apply orb_false_iff in H0 as [H0 Hnan]. rewrite Hnan, orb_false_r in H1.
      split.
      * now apply ltb_leb.
      * rewrite F64Order.leb_not_gtb, H0; auto.
        apply descending_not_nan; auto; lia.
    + intros [H1 H0].
      assert (Hnan : F64.is_nan q = false) by (now apply leb_not_nan in H0).
      apply leb_gtb_false in H0.
      assert (H2 : F64.ltb (edge g (length g - 1)) q = true).
      { rewrite F64Order.leb_spec, (F64Order.eqb_sym _ q), Hq, orb_false_r in H1.
        exact H1. }
      destruct (Nat.eq_dec (binsearch Left (rev g) q) 0) as [E|E].
      { assert (H : np_lt (edge g (length g - 1)) q = false) by (apply Hup; lia).
        rewrite N, H2 in H by lia. discriminate. }
      destruct (Nat.eq_dec (binsearch Left (rev g) q) (length g)) as [E'|E'].
      { assert (H : np_lt (edge g 0) q = true) by (apply Hlo; lia).
        rewrite N, H0, Hnan in H by lia. discriminate. }
      lia.
Qed.

(** On a strictly monotonic grid the located index is a pixel exactly for
    the points inside the closed interval the grid spans. *)
Lemma locate_in_image (g : list float) (q : float) :
  strictly_monotonic g = true -> (2 <= length g)%nat ->
  in_image g (locate g q) = inside g q.
Proof.
  intros Hg Hn. apply eq_true_iff_eq. unfold inside. cbv zeta.
  rewrite orb_true_iff, !andb_true_iff.
  apply orb_true_iff in Hg as [Hg|Hg].
  - rewrite (locate_in_image_ascending g q Hg Hn). split; [auto|].
    intros [H|[H1 H2]]; [assumption|exfalso].
    assert (H : F64.ltb (edge g 0) (edge g (length g - 1)) = true)
      by (apply ascending_edges; auto; lia).
    pose proof (leb_ltb_trans _ _ _ H2 H) as H3.
    pose proof (ltb_leb_trans _ _ _ H3 H1) as H4.
    rewrite F64Order.ltb_irrefl in H4. discriminate.
  - rewrite (locate_in_image_descending g q Hg Hn). split; [auto|].
    intros [[H1 H2]|H]; [exfalso|assumption].
    assert (H : F64.ltb (edge g (length g - 1)) (edge g 0) = true)
      by (apply descending_edges; auto; lia).
    pose proof (leb_ltb_trans _ _ _ H2 H) as H3.
    pose proof (ltb_leb_trans _ _ _ H3 H1) as H4.
    rewrite F64Order.ltb_irrefl in H4. discriminate.
Qed.

(** X5: acceptance. On a strictly monotonic grid [world_to_image] returns
    exactly when every point of the batch lies in the closed interval from
    the first edge to the last; it then gives each point a pixel index
    between [0] and [pixel_count - 1]. *)
Theorem accepts_exactly_inside (points g : list float) :
  strictly_monotonic g = true -> (2 <= length g)%nat ->
  ((exists r : list Z, world_to_image points g = Ok r) <->
   forallb (inside g) points = true) /\
  (forall r : list Z, world_to_image points g = Ok r ->
   length r = length points /\
   Forall (fun k => 0 <= k <= Z.of_nat (length g - 1) - 1) r).
Proof.
  intros Hg Hn. rewrite world_to_image_locate by assumption.
  assert (E : forallb (in_image g) (map (locate g) points) =
              forallb (inside g) points).
  { induction points as [|q l IH]; [reflexivity|].
    cbn [map forallb]. now rewrite IH, locate_in_image. }
  rewrite E. split.
  - destruct (forallb (inside g) points); split; try reflexivity.
    + intros _. eexists. reflexivity.
    + intros [r H]. discriminate.
    + discriminate.
  - intros r H. rewrite <- E in H.
    destruct (forallb (in_image g) (map (locate g) points)) eqn:F; [|discriminate].
    injection H as <-. split; [apply length_map|].
    apply Forall_forall. intros k Hk. rewrite forallb_forall in F.
    apply F, in_image_bounds in Hk. lia.
Qed.

Lemma accepts_exactly_inside_witness :
  let g := map F64.of_int [3; 2; 1; 0] in
  let points := [F64.of_int 3; F64.of_dyadic 5 (-1); F64.zero] in
  strictly_monotonic g = true /\ (2 <= length g)%nat /\
  forallb (inside g) points = true /\
  exists r : list Z, world_to_image points g = Ok r.
Proof.
  split; [reflexivity|]. split; [simpl; lia|]. split; [reflexivity|].
  apply (accepts_exactly_inside
           [F64.of_int 3; F64.of_dyadic 5 (-1); F64.zero]
           (map F64.of_int [3; 2; 1; 0])).
  - reflexivity.
  - simpl. lia.
  - reflexivity.
Defined.
(** ** Order of the pixels *)

Lemma leb_trans (x y z : float) :
  F64.leb x y = true -> F64.leb y z = true -> F64.leb x z = true.
Proof.
  intros H G. rewrite F64Order.leb_spec in H. apply orb_true_iff in H as [H|H].
  - apply ltb_leb. eapply ltb_leb_trans; eassumption.
  - rewrite F64Order.leb_spec in G |- *. apply orb_true_iff in G as [G|G].
    + rewrite (F64Order.eqb_ltb_trans _ _ _ H G). reflexivity.
    + apply F64Order.eqb_compare in H, G.
      pose proof (F64Order.compare_eq_l _ _ _ _ H G) as C.
      apply F64Order.eqb_compare in C. rewrite C. apply orb_true_r.
Qed.

(** The pixel of a point on an ascending grid: its edge is not above the
    point, and a point off the last edge is below the next edge. *)
Lemma pixel_ascending (g : list float) (q : float) (i : nat) :
  ascending g = true -> (i + 1 < length g)%nat -> locate g q = Z.of_nat i ->
  F64.leb (edge g i) q = true /\
  (F64.ltb q (edge g (i + 1)) = true \/
   (i + 2 = length g)%nat /\ F64.eqb q (edge g (length g - 1)) = true).
Proof.
  intros Hg Hi H.
  destruct (F64.eqb q (edge g (length g - 1))) eqn:Hq.
  - rewrite (locate_ascending_end g Hg ltac:(lia) q Hq) in H.
    assert (Ei : (i + 2 = length g)%nat) by lia. split; [|right; auto].
    apply ltb_leb. eapply F64Order.ltb_eqb_trans.
    + apply (ascending_edges g i (length g - 1)); auto; lia.
    + now rewrite F64Order.eqb_sym.
  - apply (locate_ascending_inside g Hg ltac:(lia) q i Hq Hi) in H as [H1 H2].
    auto.
Qed.

Lemma pixel_descending (g : list float) (q : float) (i : nat) :
  descending g = true -> (i + 1 < length g)%nat -> locate g q = Z.of_nat i ->
  F64.leb q (edge g i) = true /\
  (F64.ltb (edge g (i + 1)) q = true \/
   (i + 2 = length g)%nat /\ F64.eqb q (edge g (length g - 1)) = true).
Proof.
  intros Hg Hi H.
  destruct (F64.eqb q (edge g (length g - 1))) eqn:Hq.
  - rewrite (locate_descending_end g Hg ltac:(lia) q Hq) in H.
    assert (Ei : (i + 2 = length g)%nat) by lia. split; [|right; auto].
    apply ltb_leb. eapply F64Order.eqb_ltb_trans; [exact Hq|].
    apply (descending_edges g i (length g - 1)); auto; lia.
  - apply (locate_descending_inside g Hg ltac:(lia) q i Hq Hi) in H as [H1 H2].
    auto.
Qed.

Lemma world_to_image_pixel (g : list float) (q : float) (k : Z) :
  world_to_image [q] g = Ok [k] ->
  exists i : nat, k = Z.of_nat i /\ (i + 1 < length g)%nat /\ locate g q = Z.of_nat i.
Proof.
  intros H. destruct (Nat.lt_ge_cases (length g) 2) as [Hs|Hn].
  - rewrite world_to_image_short in H by assumption. discriminate.
  - apply world_to_image_one in H as [H Hin]; [|assumption].
    apply in_image_bounds in Hin. exists (Z.to_nat k).
    rewrite Z2Nat.id by lia. split; [reflexivity|]. split; [lia|assumption].
Qed.

(** X6: the lookup keeps the order. On an ascending grid a larger point
    never gets a smaller pixel index; on a descending grid it never gets a
    larger one. *)
Theorem world_to_image_monotone (g : list float) (q1 q2 : float) (k1 k2 : Z) :
  world_to_image [q1] g = Ok [k1] -> world_to_image [q2] g = Ok [k2] ->
  F64.leb q1 q2 = true ->
  (ascending g = true -> k1 <= k2) /\ (descending g = true -> k2 <= k1).
Proof.
  intros W1 W2 Hle.
  destruct (world_to_image_pixel g q1 k1 W1) as (i1 & -> & Hi1 & L1).
  destruct (world_to_image_pixel g q2 k2 W2) as (i2 & -> & Hi2 & L2).
  split; intros Hg.
  - destruct (Nat.le_gt_cases i1 i2) as [|Hgt]; [lia|exfalso].
    destruct (pixel_ascending g q1 i1 Hg Hi1 L1) as [A1 _].
    destruct (pixel_ascending g q2 i2 Hg Hi2 L2) as [_ [A2|[A2 _]]]; [|lia].
    assert (E : F64.leb (edge g (i2 + 1)) (edge g i1) = true).
    { destruct (Nat.eq_dec (i2 + 1) i1) as [->|Hne].
      - rewrite F64Order.leb_spec, eqb_refl; [apply orb_true_r|].
        apply ascending_not_nan; auto; lia.
      - apply ltb_leb. apply ascending_edges; auto; lia. }
    pose proof (ltb_leb_trans _ _ _ A2 (leb_trans _ _ _ E (leb_trans _ _ _ A1 Hle))) as C.
    rewrite F64Order.ltb_irrefl in C. discriminate.
  - destruct (Nat.le_gt_cases i2 i1) as [|Hgt]; [lia|exfalso].
    destruct (pixel_descending g q2 i2 Hg Hi2 L2) as [A2 _].
    destruct (pixel_descending g q1 i1 Hg Hi1 L1) as [_ [A1|[A1 _]]]; [|lia].
    assert (E : F64.leb (edge g i2) (edge g (i1 + 1)) = true).
    { destruct (Nat.eq_dec (i1 + 1) i2) as [->|Hne].
      - rewrite F64Order.leb_spec, eqb_refl; [apply orb_true_r|].
        apply descending_not_nan; auto; lia.
      - apply ltb_leb. apply descending_edges; auto; lia. }
    pose proof (leb_ltb_trans _ _ _ (leb_trans _ _ _ Hle (leb_trans _ _ _ A2 E)) A1) as C.
    rewrite F64Order.ltb_irrefl in C. discriminate.
Qed.

Lemma world_to_image_monotone_witness :
  let g := map F64.of_int [3; 2; 1; 0] in
  let q1 := F64.of_dyadic 1 (-1) in
  let q2 := F64.of_dyadic 5 (-1) in
  world_to_image [q1] g = Ok [2] /\ world_to_image [q2] g = Ok [0] /\
  F64.leb q1 q2 = true /\ 0 <= 2.
Proof.
  split; [reflexivity|]. split; [reflexivity|]. split; [reflexivity|].
  apply (world_to_image_monotone (map F64.of_int [3; 2; 1; 0])
           (F64.of_dyadic 1 (-1)) (F64.of_dyadic 5 (-1)) 2 0);
    reflexivity.
Defined.

(** ** Composing the two lookups *)

Lemma locate_edges (g : list float) (indices : list Z) :
  strictly_monotonic g = true -> (2 <= length g)%nat ->
  forallb (in_image g) indices = true ->
  map (locate g) (map (fun i => edge g (Z.to_nat i)) indices) = indices.
Proof.
  intros Hg Hn. induction indices as [|i l IH]; [reflexivity|].
  cbn [forallb map]. intros H. apply andb_true_iff in H as [Hi Hl].
  rewrite IH by assumption. f_equal.
  apply in_image_bounds in Hi.
  rewrite (locate_on_edge g _ (Z.to_nat i)); try assumption; try lia.
  apply eqb_refl. apply orb_true_iff in Hg as [Hg|Hg].
  - apply ascending_not_nan; auto; lia.
  - apply descending_not_nan; auto; lia.
Qed.

Lemma round_trip_in_image (indices : list Z) (g : list float) :
  strictly_monotonic g = true -> (2 <= length g)%nat ->
  forallb (in_image g) indices = true ->
  round_trip indices g = Ok indices.
Proof.
  intros Hg Hn Hin. unfold round_trip, image_to_world, shape0.
  cbn [ndim dtype items array1]. cbn [Nat.eqb Dtype_eqb assert bind].
  pose proof Hin as Hin'.
  rewrite forallb_in_image in Hin'. apply andb_true_iff in Hin' as [H0 H1].
  rewrite H0, H1. cbn [assert bind].
  rewrite mapM_getitem_in_image by assumption.
  cbn [bind items array1].
  rewrite world_to_image_locate by assumption.
  rewrite locate_edges by assumption. rewrite Hin. reflexivity.
Qed.

(** X7: the round trip of a batch. On a strictly monotonic grid
    [world_to_image] undoes [image_to_world] on every batch of pixel
    indices between [0] and [pixel_count - 1]. *)
Theorem round_trip_batch (indices : list Z) (g : list float) :
  strictly_monotonic g = true -> (2 <= length g)%nat ->
  Forall (fun i => 0 <= i < Z.of_nat (length g) - 1) indices ->
  round_trip indices g = Ok indices.
Proof.
  intros Hg Hn H. apply round_trip_in_image; try assumption.
  apply forallb_forall. intros i Hi. rewrite Forall_forall in H.
  apply in_image_bounds. now apply H.
Qed.

Lemma round_trip_batch_witness :
  let g := map F64.of_int [3; 2; 1; 0] in
  strictly_monotonic g = true /\ (2 <= length g)%nat /\
  round_trip [2; 0; 0; 1] g = Ok [2; 0; 0; 1].
Proof.
  split; [reflexivity|]. split; [simpl; lia|].
  apply (round_trip_batch [2; 0; 0; 1] (map F64.of_int [3; 2; 1; 0])).
  - reflexivity.
  - simpl. lia.
  - repeat (constructor; [simpl; lia|]). constructor.
Defined.

(** X13: the round trip on the grids of a raster. For a raster of positive
    width and height and a rectilinear transform whose scales are numbers
    other than zero and whose origins are numbers, on each grid that
    [pixel_coordinates] returns with no edge equal to the edge before it,
    [world_to_image] undoes [image_to_world] on every batch of pixel
    indices of the raster. *)
Theorem builder_round_trip (width height : Z) (t : Affine) (gx gy : list float) :
  0 < width -> 0 < height ->
  F64.is_number (a t) = true -> F64.eqb (a t) F64.zero = false ->
  F64.is_number (e t) = true -> F64.eqb (e t) F64.zero = false ->
  F64.is_number (c t) = true -> F64.is_number (f t) = true ->
  pixel_coordinates width height t = Ok (gx, gy) ->
  (no_repeat gx = true ->
   forall indices : list Z, Forall (fun i => 0 <= i < width) indices ->
     round_trip indices gx = Ok indices) /\
  (no_repeat gy = true ->
   forall indices : list Z, Forall (fun i => 0 <= i < height) indices ->
     round_trip indices gy = Ok indices).
Proof.
  intros Hw Hh Ha Hza He Hze Hc Hf H.
  assert (Hv : F64.valid (e t) = true).
  { unfold F64.is_number in He. now apply andb_true_iff in He as [_ He]. }
  unfold pixel_coordinates in H.
  destruct (is_rectilinear t); [|discriminate H]. cbn [assert bind] in H.
  cbn [Affine_item nth] in H. rewrite mul_minus_one in H by assumption.
  injection H as <- <-.
  destruct (axis_monotonic (a t) (c t) width Ha Hza Hc) as [_ X].
  destruct (axis_monotonic (F64.opp (e t)) (f t) height
              (opp_number _ He) (opp_nonzero _ Hze) Hf) as [_ Y].
  cbv zeta in X, Y.
  split; intros Hg indices Hin; apply round_trip_in_image;
    try (rewrite ?X, ?Y; exact Hg);
    try (apply Nat2Z.inj_le; rewrite length_map, arange_length; lia);
    apply forallb_forall; intros i Hi; rewrite Forall_forall in Hin;
    apply in_image_bounds; rewrite length_map, arange_length;
    specialize (Hin i Hi); lia.
Qed.

Lemma builder_round_trip_witness :
  let t := mk_Affine (F64.of_dyadic 0x1999999999999a (-56)) F64.zero F64.zero
                     F64.zero (F64.of_dyadic (- 0x1999999999999a) (-56))
                     (F64.of_dyadic 0x16666666666666 (-53)) in
  exists gx gy : list float,
    pixel_coordinates 10 10 t = Ok (gx, gy) /\
    no_repeat gx = true /\
    round_trip [9; 0; 3] gx = Ok [9; 0; 3].
Proof.
  cbv zeta. eexists. eexists. split; [vm_compute; reflexivity|].
  split; [vm_compute; reflexivity|].
  refine (proj1 (builder_round_trip 10 10
    (mk_Affine (F64.of_dyadic 0x1999999999999a (-56)) F64.zero F64.zero
               F64.zero (F64.of_dyadic (- 0x1999999999999a) (-56))
               (F64.of_dyadic 0x16666666666666 (-53)))
    _ _ ltac:(lia) ltac:(lia) eq_refl eq_refl eq_refl eq_refl eq_refl eq_refl
    ltac:(vm_compute; reflexivity)) _ [9; 0; 3] _).
  - vm_compute. reflexivity.
  - repeat (constructor; [lia|]). constructor.
Defined.

(** X8: looking up twice. On a strictly monotonic grid the indices that
    [world_to_image] returns are kept by the round trip through
    [image_to_world]: world -> pixel -> world -> pixel is world -> pixel. *)
Theorem world_to_image_stable (points g : list float) (r : list Z) :
  strictly_monotonic g = true ->
  world_to_image points g = Ok r -> round_trip r g = Ok r.
Proof.
  intros Hg H. destruct (Nat.lt_ge_cases (length g) 2) as [Hs|Hn].
  - rewrite world_to_image_short in H by assumption. discriminate.
  - rewrite world_to_image_locate in H by assumption.
    destruct (forallb (in_image g) (map (locate g) points)) eqn:E; [|discriminate].
    injection H as <-. now apply round_trip_in_image.
Qed.

Lemma world_to_image_stable_witness :
  let g := map F64.of_int [0; 1; 2; 3] in
  let points := [F64.zero; F64.of_dyadic 5 (-1); F64.of_int 3] in
  strictly_monotonic g = true /\ world_to_image points g = Ok [0; 2; 2] /\
  round_trip [0; 2; 2] g = Ok [0; 2; 2].
Proof.
  split; [reflexivity|]. split; [reflexivity|].
  apply (world_to_image_stable
           [F64.zero; F64.of_dyadic 5 (-1); F64.of_int 3]
           (map F64.of_int [0; 1; 2; 3]) [0; 2; 2]); reflexivity.
Defined.

(** X9: the lookups fit together. Whatever the grid holds, the indices
    [world_to_image] returns pass the assertions of [image_to_world], which
    returns one edge for each of them. *)
Theorem world_to_image_feeds_image_to_world (points g : list float) (r : list Z) :
  world_to_image points g = Ok r ->
  image_to_world (array1 int64 r) (array1 float64 g) =
  Ok (array1 float64 (map (fun i => edge g (Z.to_nat i)) r)).
Proof.
  intros H. destruct (Nat.lt_ge_cases (length g) 2) as [Hs|Hn].
  - rewrite world_to_image_short in H by assumption. discriminate.
  - rewrite world_to_image_indices in H by assumption.
    destruct (forallb (in_image g) (pixel_indices g points)) eqn:E; [|discriminate].
    injection H as <-.
    unfold image_to_world, shape0.
    cbn [ndim dtype items array1]. cbn [Nat.eqb Dtype_eqb assert bind].
    pose proof E as E'. rewrite forallb_in_image in E'.
    apply andb_true_iff in E' as [H0 H1]. rewrite H0, H1. cbn [assert bind].
    rewrite mapM_getitem_in_image by assumption. reflexivity.
Qed.

Lemma world_to_image_feeds_image_to_world_witness :
  let g := map F64.of_int [0; 1; 2; 3] in
  world_to_image [F64.of_dyadic 5 (-1)] g = Ok [2] /\
  image_to_world (array1 int64 [2]) (array1 float64 g) =
  Ok (array1 float64 [F64.of_int 2]).
Proof.
  split; [reflexivity|].
  apply (world_to_image_feeds_image_to_world [F64.of_dyadic 5 (-1)]
           (map F64.of_int [0; 1; 2; 3]) [2]).
  reflexivity.
Defined.
(** ** Direction and origin of the grids *)

Lemma number_zero : F64.is_number F64.zero = true.
Proof. reflexivity. Qed.

Lemma positive_units (x : float) :
  F64.is_number x = true -> (F64.ltb F64.zero x = true <-> 0 < F64.units x).
Proof.
  intros Hx. split; intros H.
  - apply (F64Value.ltb_units F64.zero x number_zero Hx H).
  - apply (F64Value.units_ltb F64.zero x number_zero Hx H).
Qed.

Lemma negative_units (x : float) :
  F64.is_number x = true -> (F64.ltb x F64.zero = true <-> F64.units x < 0).
Proof.
  intros Hx. split; intros H.
  - apply (F64Value.ltb_units x F64.zero Hx number_zero H).
  - apply (F64Value.units_ltb x F64.zero Hx number_zero H).
Qed.

(** An exact axis of one pixel or more ascends for a positive scale,
    descends for a negative one, and does neither for a zero scale. *)
Lemma exact_axis_direction (scale origin : float) (count : Z) :
  F64.is_number scale = true -> 1 <= count ->
  exact_edges scale origin count = true ->
  let g := map (fun p => F64.add (F64.mul p scale) origin) (arange (count + 1)) in
  ascending g = F64.ltb F64.zero scale /\ descending g = F64.ltb scale F64.zero.
Proof.
  intros Hs Hc Hg g.
  assert (Hlen : Z.of_nat (length g) = count + 1).
  { unfold g. rewrite length_map, arange_length. lia. }
  assert (Hedge : forall i, (i < length g)%nat ->
            F64.is_number (edge g i) = true /\
            F64.units (edge g i) = Z.of_nat i * F64.units scale + F64.units origin).
  { intros i Hi. unfold g. rewrite edge_map_arange by lia.
    apply (exact_edges_edge scale origin count i Hg). lia. }
  destruct (Hedge 0%nat ltac:(lia)) as [N0 U0].
  destruct (Hedge 1%nat ltac:(lia)) as [N1 U1].
  assert (Asc : ascending g = true -> 0 < F64.units scale).
  { intros H. pose proof (ascending_edges g 0 1 H ltac:(lia) ltac:(lia)) as L.
    apply F64Value.ltb_units in L; auto. lia. }
  assert (Desc : descending g = true -> F64.units scale < 0).
  { intros H. pose proof (descending_edges g 0 1 H ltac:(lia) ltac:(lia)) as L.
    apply F64Value.ltb_units in L; auto. lia. }
  assert (Up : 0 < F64.units scale -> ascending g = true).
  { intros H. apply ascending_adjacent. intros i Hi.
    destruct (Hedge i ltac:(lia)) as [Ni Ui].
    destruct (Hedge (i + 1)%nat ltac:(lia)) as [Nj Uj].
    apply F64Value.units_ltb; auto. lia. }
  assert (Down : F64.units scale < 0 -> descending g = true).
  { intros H. apply descending_adjacent. intros i Hi.
    destruct (Hedge i ltac:(lia)) as [Ni Ui].
    destruct (Hedge (i + 1)%nat ltac:(lia)) as [Nj Uj].
    apply F64Value.units_ltb; auto. lia. }
  split; apply eq_true_iff_eq.
  - rewrite (positive_units scale Hs). split; auto.
  - rewrite (negative_units scale Hs). split; auto.
Qed.

Lemma opp_ltb_zero (x : float) :
  F64.ltb F64.zero (F64.opp x) = F64.ltb x F64.zero /\
  F64.ltb (F64.opp x) F64.zero = F64.ltb F64.zero x.
Proof. destruct x as [[]|[]| |[] m ex]; split; reflexivity. Qed.

(** X10: the direction of the grids. When the edges are exact, the x-edges
    ascend exactly for a positive [scale_x] and descend exactly for a
    negative one; the y-edges, built from the negated scale, ascend exactly
    for a negative [scale_y] and descend exactly for a positive one. *)
Theorem grid_direction (width height : Z) (t : Affine) :
  is_rectilinear t = true -> 1 <= width -> 1 <= height ->
  F64.is_number (a t) = true -> F64.is_number (e t) = true ->
  exact_edges (a t) (c t) width = true ->
  exact_edges (F64.opp (e t)) (f t) height = true ->
  exists gx gy : list float,
    pixel_coordinates width height t = Ok (gx, gy) /\
    ascending gx = F64.ltb F64.zero (a t) /\
    descending gx = F64.ltb (a t) F64.zero /\
    ascending gy = F64.ltb (e t) F64.zero /\
    descending gy = F64.ltb F64.zero (e t).
Proof.
  intros Hr Hw Hh Ha He Hx Hy.
  assert (Hv : F64.valid (e t) = true).
  { unfold F64.is_number in He. now apply andb_true_iff in He as [_ He]. }
  unfold pixel_coordinates. rewrite Hr. cbn [assert bind].
  eexists. eexists. split; [reflexivity|].
  cbn [Affine_item nth]. rewrite mul_minus_one by assumption.
  destruct (exact_axis_direction (a t) (c t) width Ha Hw Hx) as [-> ->].
  destruct (exact_axis_direction (F64.opp (e t)) (f t) height
              (opp_number _ He) Hh Hy) as [-> ->].
  destruct (opp_ltb_zero (e t)) as [-> ->]. auto.
Qed.

(** A north-up raster: [scale_x = 0.5] and [scale_y = -0.25]; both grids
    ascend. *)
Lemma grid_direction_witness :
  let t := mk_Affine (F64.of_dyadic 1 (-1)) F64.zero (F64.of_int 10)
                     F64.zero (F64.of_dyadic (-1) (-2)) (F64.of_int 20) in
  exists gx gy : list float,
    pixel_coordinates 3 2 t = Ok (gx, gy) /\
    ascending gx = true /\ descending gx = false /\
    ascending gy = true /\ descending gy = false.
Proof.
  apply (grid_direction 3 2
    (mk_Affine (F64.of_dyadic 1 (-1)) F64.zero (F64.of_int 10)
               F64.zero (F64.of_dyadic (-1) (-2)) (F64.of_int 20)));
    try lia; vm_compute; reflexivity.
Defined.

Lemma first_edge (scale origin : float) :
  F64.is_finite scale = true -> F64.is_nan origin = false ->
  F64.eqb (F64.add (F64.mul (F64.of_int 0) scale) origin) origin = true.
Proof.
  change (F64.of_int 0) with (S754_zero false).
  destruct scale as [s|s| |s m ex]; try discriminate; intros _;
    destruct origin as [[]|[]| |[] m' ex']; try discriminate; intros _;
    try reflexivity; destruct s; cbn [F64.mul SFmul xorb F64.add SFadd];
    try reflexivity;
    apply eqb_refl; reflexivity.
Qed.

(** X11: the grids start at the origin. For finite scales and an origin
    that is not NaN, the first x-edge equals [origin_x] and the first
    y-edge equals [origin_y]: no rounding occurs at pixel 0. *)
Theorem grid_starts_at_origin (width height : Z) (t : Affine) :
  is_rectilinear t = true -> 0 <= width -> 0 <= height ->
  F64.is_finite (a t) = true -> F64.is_number (e t) = true ->
  F64.is_nan (c t) = false -> F64.is_nan (f t) = false ->
  exists gx gy : list float,
    pixel_coordinates width height t = Ok (gx, gy) /\
    F64.eqb (edge gx 0) (c t) = true /\ F64.eqb (edge gy 0) (f t) = true.
Proof.
  intros Hr Hw Hh Ha He Hc Hf.
  assert (Hv : F64.valid (e t) = true).
  { unfold F64.is_number in He. now apply andb_true_iff in He as [_ He]. }
  assert (Hfin : F64.is_finite (F64.opp (e t)) = true).
  { apply opp_number in He. unfold F64.is_number in He.
    now apply andb_true_iff in He as [He _]. }
  unfold pixel_coordinates. rewrite Hr. cbn [assert bind].
  eexists. eexists. split; [reflexivity|].
  cbn [Affine_item nth]. rewrite mul_minus_one by assumption.
  rewrite !(edge_map_arange _ _ 0) by lia.
  split; apply first_edge; assumption.
Qed.

Lemma grid_starts_at_origin_witness :
  let t := mk_Affine (F64.of_dyadic 1 (-1)) F64.zero (F64.of_int 10)
                     F64.zero (F64.of_dyadic (-1) (-2)) (F64.of_int 20) in
  exists gx gy : list float,
    pixel_coordinates 3 2 t = Ok (gx, gy) /\
    F64.eqb (edge gx 0) (F64.of_int 10) = true /\
    F64.eqb (edge gy 0) (F64.of_int 20) = true.
Proof.
  apply (grid_starts_at_origin 3 2
    (mk_Affine (F64.of_dyadic 1 (-1)) F64.zero (F64.of_int 10)
               F64.zero (F64.of_dyadic (-1) (-2)) (F64.of_int 20)));
    try lia; reflexivity.
Defined.

(** ** Grids of rasters of different sizes *)

Lemma firstn_seq_le (start n m : nat) :
  (n <= m)%nat -> firstn n (seq start m) = seq start n.
Proof.
  revert start m. induction n as [|n IH]; intros start m H; [reflexivity|].
  destruct m as [|m]; [lia|]. simpl. f_equal. apply IH. lia.
Qed.

Lemma arange_prefix (n m : Z) :
  n <= m -> arange n = firstn (Z.to_nat n) (arange m).
Proof.
  intros H. unfold arange. rewrite firstn_map, firstn_seq_le by lia. reflexivity.
Qed.

(** X12: edges do not depend on the size of the raster. With the same
    transform, the grids of a raster are the first [width + 1] and
    [height + 1] edges of the grids of any raster at least as wide and as
    high. *)
Theorem grid_prefix (width height width' height' : Z) (t : Affine)
    (gx gy gx' gy' : list float) :
  width <= width' -> height <= height' ->
  pixel_coordinates width height t = Ok (gx, gy) ->
  pixel_coordinates width' height' t = Ok (gx', gy') ->
  gx = firstn (Z.to_nat (width + 1)) gx' /\
  gy = firstn (Z.to_nat (height + 1)) gy'.
Proof.
  intros Hw Hh. unfold pixel_coordinates.
  destruct (is_rectilinear t); cbn [assert bind]; [|discriminate].
  intros H H'. injection H as <- <-. injection H' as <- <-.
  rewrite !firstn_map, <- !arange_prefix by lia. auto.
Qed.

Lemma grid_prefix_witness :
  let t := mk_Affine (F64.of_dyadic 1 (-1)) F64.zero (F64.of_int 10)
                     F64.zero (F64.of_dyadic (-1) (-2)) (F64.of_int 20) in
  exists gx gy gx' gy' : list float,
    pixel_coordinates 1 1 t = Ok (gx, gy) /\
    pixel_coordinates 3 2 t = Ok (gx', gy') /\
    gx = firstn 2 gx' /\ gy = firstn 2 gy'.
Proof.
  cbv zeta. do 4 eexists. split; [reflexivity|]. split; [reflexivity|].
  apply (grid_prefix 1 1 3 2
    (mk_Affine (F64.of_dyadic 1 (-1)) F64.zero (F64.of_int 10)
               F64.zero (F64.of_dyadic (-1) (-2)) (F64.of_int 20)));
    try lia; reflexivity.
Defined.
